(** * AvAtom.staticKS: orbitals, occupations and density of the average atom

    A shallow embedding of [AvAtom/staticKS.py] (classes [Orbitals] and
    [Density]) together with the global [config] module it reads and
    writes.  Floating-point numbers are kept abstract: the program is
    embedded over any type [F] that offers the arithmetic the source
    uses, so every theorem holds for whatever number system interprets
    it.  Where a statement needs a law of arithmetic, the law is an
    explicit hypothesis.  The real numbers provide one instance. *)

From Stdlib Require Import Reals Lra.
From Stdlib Require Import Ascii String Bool ZArith Arith Lia List.
Import ListNotations.

#[local] Close Scope R_scope.

Set Implicit Arguments.

(** ** Numbers *)

(** The operations on Python floats that the source applies:
    conversion from an integer literal, the literal [0.5], [math.pi],
    [+ * / **], unary minus, [exp], [math.sqrt], and the comparisons
    [<] and [!=]. *)
Class Float (F : Type) := {
  of_int : Z -> F;
  fhalf : F;
  fpi : F;
  fadd : F -> F -> F;
  fmul : F -> F -> F;
  fdiv : F -> F -> F;
  fpow : F -> F -> F;
  fneg : F -> F;
  fexp : F -> F;
  fsqrt : F -> F;
  fltb : F -> F -> bool;
  fneb : F -> F -> bool
}.

Class Default (A : Type) := default : A.

#[export] Instance default_bool : Default bool := false.
#[export] Instance default_float {F} `{Float F} : Default F := @of_int F _ 0.

(** ** Exceptions *)

Inductive exn : Type :=
| IndexError
| ValueError
| AxisError
| LibraryError (name : string).

Inductive result (A : Type) : Type :=
| Ok (a : A)
| Err (e : exn).
Arguments Ok {A} a.
Arguments Err {A} e.

(** ** A model of the numpy operations used by the source *)

Module np.

(** An array is its shape and its elements in row-major order. *)
Record ndarray (A : Type) := NDArray { shape : list nat; data : list A }.
Arguments NDArray {A} shape data.
Arguments shape {A} n.
Arguments data {A} n.

Fixpoint size (sh : list nat) : nat :=
  match sh with
  | [] => 1
  | d :: sh' => d * size sh'
  end.

(** Offset of a multi-index in row-major order, and its inverse. *)
Fixpoint ravel (sh idx : list nat) : nat :=
  match sh, idx with
  | _ :: sh', i :: idx' => i * size sh' + ravel sh' idx'
  | _, _ => 0
  end.

Fixpoint unravel (sh : list nat) (k : nat) : list nat :=
  match sh with
  | [] => []
  | _ :: sh' => (k / size sh') :: unravel sh' (k mod size sh')
  end.

(** [in_range idx sh]: the multi-index [idx] addresses an element of an
    array of shape [sh]. *)
Definition in_range (idx sh : list nat) : Prop := Forall2 lt idx sh.

Definition get {A} `{Default A} (a : ndarray A) (idx : list nat) : A :=
  nth (ravel (shape a) idx) (data a) default.

(** The array of shape [sh] holding [f idx] at every index. *)
Definition tabulate {A} (sh : list nat) (f : list nat -> A) : ndarray A :=
  NDArray sh (map (fun k => f (unravel sh k)) (seq 0 (size sh))).

(** A Python scalar seen as a zero-dimensional array. *)
Definition scalar {A} (x : A) : ndarray A := NDArray [] [x].

(** An array is well formed when it is the tabulation of its own
    elements; every array an operation builds is. *)
Definition wf {A} `{Default A} (a : ndarray A) : Prop :=
  a = tabulate (shape a) (get a).

(** [row_const a i x]: the array [a] is well formed and holds [x]
    everywhere in its row [i]. *)
Definition row_const {A} `{Default A} (a : ndarray A) (i : nat) (x : A)
  : Prop :=
  exists d sh, shape a = d :: sh /\ i < d /\ wf a /\
    forall rest, in_range rest sh -> get a (i :: rest) = x.

(** *** Broadcasting *)

(** Shapes are aligned at their last axis; two lengths agree when they
    are equal or one of them is 1. *)
Fixpoint bshape_rev (r1 r2 : list nat) : option (list nat) :=
  match r1, r2 with
  | [], r => Some r
  | r, [] => Some r
  | d1 :: r1', d2 :: r2' =>
      match bshape_rev r1' r2' with
      | Some r =>
          if d1 =? d2 then Some (d1 :: r)
          else if d1 =? 1 then Some (d2 :: r)
          else if d2 =? 1 then Some (d1 :: r)
          else None
      | None => None
      end
  end.

Definition broadcast_shapes (s1 s2 : list nat) : option (list nat) :=
  option_map (@rev nat) (bshape_rev (rev s1) (rev s2)).

(** The index into an operand of shape [sh] that the index [idx] of the
    broadcast result reads. *)
Definition bidx (sh idx : list nat) : list nat :=
  map (fun di => if fst di =? 1 then 0 else snd di)
      (combine sh (skipn (length idx - length sh) idx)).

Definition shape_eq_dec := list_eq_dec Nat.eq_dec.

Section Elementwise.
Context {A B C : Type} `{Default A} `{Default B}.

Definition amap (f : A -> B) (a : ndarray A) : ndarray B :=
  tabulate (shape a) (fun idx => f (get a idx)).

Definition binop (f : A -> B -> C) (a : ndarray A) (b : ndarray B)
  : result (ndarray C) :=
  match broadcast_shapes (shape a) (shape b) with
  | Some sh =>
      Ok (tabulate sh (fun idx =>
            f (get a (bidx (shape a) idx)) (get b (bidx (shape b) idx))))
  | None => Err ValueError
  end.
End Elementwise.

Section Indexing.
Context {A : Type} `{Default A}.

(** [a[i]] *)
Definition getitem (a : ndarray A) (i : nat) : result (ndarray A) :=
  match shape a with
  | [] => Err IndexError
  | d :: sh =>
      if i <? d then Ok (tabulate sh (fun idx => get a (i :: idx)))
      else Err IndexError
  end.

(** [a[i]] read as a number, for an array with one axis.  The arrays
    read this way ([config.nele], [config.mu]) hold one number per
    spin channel; an array of higher rank is rejected here. *)
Definition item (a : ndarray A) (i : nat) : result A :=
  match shape a with
  | [d] => if i <? d then Ok (get a [i]) else Err IndexError
  | [] => Err IndexError
  | _ => Err ValueError
  end.

(** [a[i] = v] *)
Definition setitem (a : ndarray A) (i : nat) (v : ndarray A)
  : result (ndarray A) :=
  match shape a with
  | [] => Err IndexError
  | d :: sh =>
      if i <? d then
        match broadcast_shapes (shape v) sh with
        | Some sh' =>
            if shape_eq_dec sh' sh then
              Ok (tabulate (d :: sh) (fun idx =>
                    match idx with
                    | j :: rest =>
                        if j =? i then get v (bidx (shape v) rest)
                        else get a idx
                    | [] => default
                    end))
            else Err ValueError
        | None => Err ValueError
        end
      else Err IndexError
  end.

(** [a[:, l]] *)
Definition getcol (a : ndarray A) (l : nat) : result (ndarray A) :=
  match shape a with
  | d0 :: d1 :: sh =>
      if l <? d1 then
        Ok (tabulate (d0 :: sh) (fun idx =>
              match idx with
              | s :: rest => get a (s :: l :: rest)
              | [] => default
              end))
      else Err IndexError
  | _ => Err IndexError
  end.

(** [a[:, l] = v] *)
Definition setcol (a : ndarray A) (l : nat) (v : ndarray A)
  : result (ndarray A) :=
  match shape a with
  | d0 :: d1 :: sh =>
      if l <? d1 then
        match broadcast_shapes (shape v) (d0 :: sh) with
        | Some sh' =>
            if shape_eq_dec sh' (d0 :: sh) then
              Ok (tabulate (d0 :: d1 :: sh) (fun idx =>
                    match idx with
                    | s :: j :: rest =>
                        if j =? l then get v (bidx (shape v) (s :: rest))
                        else get a idx
                    | _ => default
                    end))
            else Err ValueError
        | None => Err ValueError
        end
      else Err IndexError
  | _ => Err IndexError
  end.

(** [np.where(c, x, y)] with scalar branches. *)
Definition where_ (c : ndarray bool) (x y : A) : ndarray A :=
  tabulate (shape c) (fun idx => if get c idx then x else y).
End Indexing.

Section Numeric.
Context {F : Type} `{Float F}.

Definition zeros (sh : list nat) : ndarray F :=
  tabulate sh (fun _ => of_int 0).

Definition zeros_like (a : ndarray F) : ndarray F := zeros (shape a).

Definition neg (a : ndarray F) : ndarray F := amap fneg a.
Definition exp (a : ndarray F) : ndarray F := amap fexp a.

(** [a / c], [a ** c], [c * a] and [a < c] for a Python number [c]. *)
Definition div_scalar (a : ndarray F) (c : F) : ndarray F :=
  amap (fun x => fdiv x c) a.
Definition pow_scalar (a : ndarray F) (c : F) : ndarray F :=
  amap (fun x => fpow x c) a.
Definition scalar_mul (c : F) (a : ndarray F) : ndarray F :=
  amap (fun x => fmul c x) a.
Definition lt_scalar (a : ndarray F) (c : F) : ndarray bool :=
  amap (fun x => fltb x c) a.

(** [a * b] *)
Definition mul (a b : ndarray F) : result (ndarray F) := binop fmul a b.

(** The sum over two axes of lengths [nj] and [nk], accumulated from
    zero with the second axis running fastest. *)
Definition fsum2 (nj nk : nat) (f : nat -> nat -> F) : F :=
  fold_left (fun acc jk => fadd acc (f (fst jk) (snd jk)))
            (list_prod (seq 0 nj) (seq 0 nk)) (of_int 0).

(** [np.einsum("ijk,ijkl->il", a, b)]; the axes named alike must have
    equal lengths. *)
Definition einsum_ijk_ijkl_il (a b : ndarray F) : result (ndarray F) :=
  match shape a, shape b with
  | [ni; nj; nk], [ni'; nj'; nk'; nl] =>
      if (ni =? ni') && (nj =? nj') && (nk =? nk') then
        Ok (tabulate [ni; nl] (fun idx =>
              match idx with
              | [i; l] =>
                  fsum2 nj nk (fun j k =>
                    fmul (get a [i; j; k]) (get b [i; j; k; l]))
              | _ => default
              end))
      else Err ValueError
  | _, _ => Err ValueError
  end.

(** [np.sum(a, axis=(1, 2))] *)
Definition sum_axis12 (a : ndarray F) : result (ndarray F) :=
  match shape a with
  | ni :: nj :: nk :: sh =>
      Ok (tabulate (ni :: sh) (fun idx =>
            match idx with
            | i :: rest =>
                fsum2 nj nk (fun j k => get a (i :: j :: k :: rest))
            | [] => default
            end))
  | _ => Err AxisError
  end.
End Numeric.

End np.

Import np.

(** ** The objects of the program *)

Section StaticKS.
Context {F : Type} `{Float F}.

(** The [config] module: the globals that [staticKS] reads.
    [ngrid] is [config.grid_params["ngrid"]]. *)
Record Config := {
  spindims : nat;
  lmax : nat;
  nmax : nat;
  ngrid : nat;
  unbound : string;
  xgrid : ndarray F;
  nele : ndarray F;
  beta : F;
  mu : ndarray F;
  sph_vol : F
}.

Record Orbitals := {
  eigfuncs : ndarray F;
  eigvals : ndarray F;
  occnums : ndarray F;
  lbound : ndarray F
}.

Record Density := {
  rho_bound : ndarray F;
  rho_unbound : ndarray F;
  N_bound : ndarray F;
  N_unbound : ndarray F
}.

Record Atom := { at_chrg : F }.

(** The store: the [config] module, the [Orbitals] object and the
    [Density] object.  Methods receive these objects by reference. *)
Record World := { cfg : Config; orbs : Orbitals; dens : Density }.

Definition set_mu (m : ndarray F) (w : World) : World :=
  let c := cfg w in
  {| cfg := {| spindims := spindims c; lmax := lmax c; nmax := nmax c;
               ngrid := ngrid c; unbound := unbound c; xgrid := xgrid c;
               nele := nele c; beta := beta c; mu := m;
               sph_vol := sph_vol c |};
     orbs := orbs w; dens := dens w |}.

Definition set_orbs (o : Orbitals) (w : World) : World :=
  {| cfg := cfg w; orbs := o; dens := dens w |}.

Definition set_dens (d : Density) (w : World) : World :=
  {| cfg := cfg w; orbs := orbs w; dens := d |}.

Definition set_eig (ef ev : ndarray F) (w : World) : World :=
  let o := orbs w in
  set_orbs {| eigfuncs := ef; eigvals := ev;
              occnums := occnums o; lbound := lbound o |} w.

Definition set_occnums (a : ndarray F) (w : World) : World :=
  let o := orbs w in
  set_orbs {| eigfuncs := eigfuncs o; eigvals := eigvals o;
              occnums := a; lbound := lbound o |} w.

Definition set_lbound (a : ndarray F) (w : World) : World :=
  let o := orbs w in
  set_orbs {| eigfuncs := eigfuncs o; eigvals := eigvals o;
              occnums := occnums o; lbound := a |} w.

Definition set_rho_bound (a : ndarray F) (w : World) : World :=
  let d := dens w in
  set_dens {| rho_bound := a; rho_unbound := rho_unbound d;
              N_bound := N_bound d; N_unbound := N_unbound d |} w.

Definition set_rho_unbound (a : ndarray F) (w : World) : World :=
  let d := dens w in
  set_dens {| rho_bound := rho_bound d; rho_unbound := a;
              N_bound := N_bound d; N_unbound := N_unbound d |} w.

Definition set_N_bound (a : ndarray F) (w : World) : World :=
  let d := dens w in
  set_dens {| rho_bound := rho_bound d; rho_unbound := rho_unbound d;
              N_bound := a; N_unbound := N_unbound d |} w.

Definition set_N_unbound (a : ndarray F) (w : World) : World :=
  let d := dens w in
  set_dens {| rho_bound := rho_bound d; rho_unbound := rho_unbound d;
              N_bound := N_bound d; N_unbound := a |} w.

(** ** Statements: state passing with exceptions *)

(** A statement either completes with a value or raises; in both
    cases the store is what the statement left behind. *)
Inductive outcome (A : Type) : Type :=
| Return (a : A) (w : World)
| Raise (e : exn) (w : World).
Arguments Return {A} a w.
Arguments Raise {A} e w.

Definition M (A : Type) : Type := World -> outcome A.

Definition ret {A} (a : A) : M A := fun w => Return a w.

Definition bind {A B} (m : M A) (k : A -> M B) : M B :=
  fun w =>
    match m w with
    | Return a w' => k a w'
    | Raise e w' => Raise e w'
    end.

Definition gets {A} (f : World -> A) : M A := fun w => Return (f w) w.

Definition modify (f : World -> World) : M unit := fun w => Return tt (f w).

Definition lift {A} (r : result A) : M A :=
  fun w =>
    match r with
    | Ok a => Return a w
    | Err e => Raise e w
    end.

Definition final {A} (o : outcome A) : World :=
  match o with
  | Return _ w => w
  | Raise _ w => w
  end.

Definition raises {A} (m : M A) (w : World) : Prop :=
  exists e w', m w = Raise e w'.

(** [preserves P m]: the statement [m] keeps [P] true of the store,
    whether it completes or raises. *)
Definition preserves {A} (P : World -> Prop) (m : M A) : Prop :=
  forall w, P w -> P (final (m w)).

Local Notation "x <- m ;; k" := (bind m (fun x => k))
  (at level 61, m at next level, right associativity).
Local Notation "m ;;; k" := (bind m (fun _ => k))
  (at level 61, right associativity).

(** [for i in l: body(i)] *)
Fixpoint for_ (l : list nat) (body : nat -> M unit) : M unit :=
  match l with
  | [] => ret tt
  | i :: l' => body i ;;; for_ l' body
  end.

(** A loop that updates one local variable. *)
Fixpoint for_local {A} (l : list nat) (body : A -> nat -> M A) (a : A)
  : M A :=
  match l with
  | [] => ret a
  | i :: l' => a' <- body a i ;; for_local l' body a'
  end.

Definition range (n : nat) : list nat := seq 0 n.

(** ** The libraries the module calls *)

(** [numerov.matrix_solve(orbs, v, xgrid)] returns the eigenfunctions
    and the eigenvalues; [mathtools.chem_pot(orbs)] returns the
    chemical potentials.  Both read [config] and may raise.
    [fermi_dirac] and [fd_int_complete] are the functions of
    [mathtools] on numbers. *)
Variable matrix_solve :
  Config -> Orbitals -> ndarray F -> ndarray F ->
  result (ndarray F * ndarray F).
Variable chem_pot : Config -> Orbitals -> result (ndarray F).
Variable fermi_dirac : F -> F -> F -> F.
Variable fd_int_complete : F -> F -> F -> F.

(** [mathtools.fermi_dirac(eps, mu, beta)] applied to an array of
    eigenvalues acts on each of them. *)
Definition fermi_dirac_array (eps : ndarray F) (m b : F) : ndarray F :=
  amap (fun e => fermi_dirac e m b) eps.

(** ** class Orbitals *)

(** [Orbitals.__init__] *)
Definition Orbitals_init (c : Config) : Orbitals :=
  {| eigfuncs := zeros [spindims c; lmax c; nmax c; ngrid c];
     eigvals := zeros [spindims c; lmax c; nmax c];
     occnums := zeros [spindims c; lmax c; nmax c];
     lbound := zeros [spindims c; lmax c; nmax c] |}.

(** [Orbitals.make_lbound] *)
Definition make_lbound : M unit :=
  c <- gets cfg ;;
  for_ (range (lmax c)) (fun l =>
    self <- gets orbs ;;
    col <- lift (getcol (eigvals self) l) ;;
    let v := where_ (lt_scalar col (of_int 0))
                    (fadd (of_int (2 * Z.of_nat l)) (of_int 1))
                    (of_int 0) in
    lb <- lift (setcol (lbound self) l v) ;;
    modify (set_lbound lb)).

(** [Orbitals.SCF_init] *)
Definition SCF_init (atom : Atom) : M unit :=
  c <- gets cfg ;;
  v_en <- for_local (range (spindims c)) (fun v_en i =>
            lift (setitem v_en i
                    (scalar_mul (fneg (at_chrg atom))
                                (exp (neg (xgrid c))))))
          (zeros [spindims c; ngrid c]) ;;
  self <- gets orbs ;;
  sol <- lift (matrix_solve c self v_en (xgrid c)) ;;
  modify (set_eig (fst sol) (snd sol)) ;;;
  make_lbound ;;;
  modify (set_mu (zeros [spindims c])).

(** [Orbitals.calc_occnums] *)
Definition calc_occnums (mu_ : ndarray F) : M (ndarray F) :=
  self <- gets orbs ;;
  c <- gets cfg ;;
  for_local (range (spindims c)) (fun occ i =>
    n_i <- lift (item (nele c) i) ;;
    if fneb n_i (of_int 0) then
      lb_i <- lift (getitem (lbound self) i) ;;
      ev_i <- lift (getitem (eigvals self) i) ;;
      mu_i <- lift (item mu_ i) ;;
      prod <- lift (mul lb_i (fermi_dirac_array ev_i mu_i (beta c))) ;;
      lift (setitem occ i prod)
    else ret occ)
  (zeros_like (eigvals self)).

(** [Orbitals.occupy] *)
Definition occupy : M bool :=
  c <- gets cfg ;;
  self <- gets orbs ;;
  m <- lift (chem_pot c self) ;;
  modify (set_mu m) ;;;
  c <- gets cfg ;;
  occ <- calc_occnums (mu c) ;;
  modify (set_occnums occ) ;;;
  ret true.

(** ** class Density *)

(** [Density.__init__] *)
Definition Density_init (c : Config) : Density :=
  {| rho_bound := zeros [spindims c; ngrid c];
     rho_unbound := zeros_like (zeros [spindims c; ngrid c]);
     N_bound := zeros [spindims c];
     N_unbound := zeros_like (zeros [spindims c]) |}.

(** [Density.construct_rho_bound] *)
Definition construct_rho_bound : M unit :=
  c <- gets cfg ;;
  o <- gets orbs ;;
  orbs_R <- lift (mul (exp (div_scalar (neg (xgrid c)) (of_int 2)))
                      (eigfuncs o)) ;;
  let orbs_R_sq := pow_scalar orbs_R (of_int 2) in
  rb <- lift (einsum_ijk_ijkl_il (occnums o) orbs_R_sq) ;;
  modify (set_rho_bound rb) ;;;
  o <- gets orbs ;;
  nb <- lift (sum_axis12 (occnums o)) ;;
  modify (set_N_bound nb).

(** [Density.construct_rho_unbound] *)
Definition construct_rho_unbound : M unit :=
  c <- gets cfg ;;
  if String.eqb (unbound c) "ideal" then
    for_ (range (spindims c)) (fun i =>
      c <- gets cfg ;;
      n_i <- lift (item (nele c) i) ;;
      let prefac :=
        fdiv n_i (fmul (fsqrt (of_int 2)) (fpow fpi (of_int 2))) in
      mu_i <- lift (item (mu c) i) ;;
      let n_ub := fmul prefac (fd_int_complete mu_i (beta c) fhalf) in
      d <- gets dens ;;
      ru <- lift (setitem (rho_unbound d) i (scalar n_ub)) ;;
      modify (set_rho_unbound ru) ;;;
      d <- gets dens ;;
      nu <- lift (setitem (N_unbound d) i
                    (scalar (fmul n_ub (sph_vol c)))) ;;
      modify (set_N_unbound nu))
  else ret tt.

(** [Density.construct] *)
Definition construct : M unit :=
  construct_rho_bound ;;;
  construct_rho_unbound.

(** ** The quantities the methods compute, entry by entry *)

(** The mask entry that [make_lbound] writes for angular momentum [l]
    and eigenvalue [e]: [np.where(e < 0, 2 * l + 1.0, 0.0)]. *)
Definition lbound_entry (l : nat) (e : F) : F :=
  if fltb e (of_int 0) then fadd (of_int (2 * Z.of_nat l)) (of_int 1)
  else of_int 0.

(** The occupation number that [calc_occnums] computes for the state
    [(s, l, n)] from the chemical potentials [m]. *)
Definition occnum_entry (c : Config) (o : Orbitals) (m : ndarray F)
           (s l n : nat) : F :=
  if fneb (get (nele c) [s]) (of_int 0) then
    fmul (get (lbound o) [s; l; n])
         (fermi_dirac (get (eigvals o) [s; l; n]) (get m [s]) (beta c))
  else of_int 0.

(** The term of the bound density that the state [(s, l, n)] adds at
    the grid point [i]:
    [occnums[s,l,n] * (exp(-x_i / 2.0) * eigfuncs[s,l,n,i]) ** 2.0]. *)
Definition rho_bound_term (c : Config) (o : Orbitals)
           (s i l n : nat) : F :=
  fmul (get (occnums o) [s; l; n])
       (fpow (fmul (fexp (fdiv (fneg (get (xgrid c) [i])) (of_int 2)))
                   (get (eigfuncs o) [s; l; n; i]))
             (of_int 2)).

(** The density of unbound electrons of the spin channel [s]:
    [nele[s] / (sqrt(2) * pi ** 2) * fd_int_complete(mu[s], beta, 0.5)]. *)
Definition n_unbound (c : Config) (s : nat) : F :=
  fmul (fdiv (get (nele c) [s])
             (fmul (fsqrt (of_int 2)) (fpow fpi (of_int 2))))
       (fd_int_complete (get (mu c) [s]) (beta c) fhalf).

(** The body of the loop of [construct_rho_unbound]. *)
Definition unbound_step (i : nat) : M unit :=
  bind (gets cfg) (fun c =>
  bind (lift (item (nele c) i)) (fun n_i =>
  bind (lift (item (mu c) i)) (fun mu_i =>
  bind (gets dens) (fun d =>
  bind (lift (setitem (rho_unbound d) i
          (scalar (fmul (fdiv n_i (fmul (fsqrt (of_int 2))
                                        (fpow fpi (of_int 2))))
                        (fd_int_complete mu_i (beta c) fhalf)))))
       (fun ru =>
  bind (modify (set_rho_unbound ru)) (fun _ =>
  bind (gets dens) (fun d =>
  bind (lift (setitem (N_unbound d) i
          (scalar (fmul (fmul (fdiv n_i (fmul (fsqrt (of_int 2))
                                              (fpow fpi (of_int 2))))
                              (fd_int_complete mu_i (beta c) fhalf))
                        (sph_vol c)))))
       (fun nu => modify (set_N_unbound nu))))))))).

(** Row [i] of both unbound arrays holds what the loop writes there. *)
Definition row_done (c : Config) (i : nat) (d : Density) : Prop :=
  item (nele c) i = Ok (get (nele c) [i]) /\
  item (mu c) i = Ok (get (mu c) [i]) /\
  row_const (rho_unbound d) i (n_unbound c i) /\
  row_const (N_unbound d) i (fmul (n_unbound c i) (sph_vol c)).

End StaticKS.

Arguments Config F : clear implicits.
Arguments Orbitals F : clear implicits.
Arguments Density F : clear implicits.
Arguments Atom F : clear implicits.
Arguments World F : clear implicits.
Arguments outcome F A : clear implicits.
Arguments M F A : clear implicits.
Arguments Return {F A} a w.
Arguments Raise {F A} e w.

(** ** The real numbers as an instance

    Arithmetic read over the reals.  [x ** y] is [x * x] for the
    exponent [2], the only exponent the program uses, and Stdlib's
    real power otherwise. *)

Definition R_ltb (x y : R) : bool := if Rlt_dec x y then true else false.

Definition R_neb (x y : R) : bool := if Req_dec_T x y then false else true.

Definition R_pow (x y : R) : R :=
  if Req_dec_T y 2 then Rmult x x else Rpower x y.

#[export] Instance Float_R : Float R := {|
  of_int := IZR;
  fhalf := Rinv 2;
  fpi := PI;
  fadd := Rplus;
  fmul := Rmult;
  fdiv := Rdiv;
  fpow := R_pow;
  fneg := Ropp;
  fexp := Rtrigo_def.exp;
  fsqrt := sqrt;
  fltb := R_ltb;
  fneb := R_neb
|}.

(** ** Concrete objects over the real numbers *)

Module Examples.

(** Stand-ins for the library routines, which are not part of the
    module: a Fermi-Dirac weight [1 / (exp(beta (eps - mu)) + 1)], a
    Fermi-Dirac integral, a root finder that answers zero for every
    spin channel, and a solver that answers two given arrays. *)
Definition fermi_dirac_R (eps m b : R) : R :=
  (1 / (Rtrigo_def.exp (b * (eps - m)) + 1))%R.

Definition fd_int_complete_R (m b j : R) : R :=
  (Rtrigo_def.exp m / (1 + j))%R.

Definition chem_pot_R (c : Config R) (o : Orbitals R)
  : result (ndarray R) :=
  Ok (zeros [spindims c]).

Definition eigfuncs1 : ndarray R :=
  NDArray [1; 1; 2; 2] [1; 1; 1; 1]%R.

Definition eigvals1 : ndarray R := NDArray [1; 1; 2] [-1; 0]%R.

Definition matrix_solve_R (c : Config R) (o : Orbitals R)
           (v x : ndarray R) : result (ndarray R * ndarray R) :=
  Ok (eigfuncs1, eigvals1).

(** One spin channel with [n] electrons, [lmax = 1], [nmax = 2], two
    grid points. *)
Definition config1 (treatment : string) (n : R) : Config R :=
  {| spindims := 1; lmax := 1; nmax := 2; ngrid := 2;
     unbound := treatment;
     xgrid := NDArray [2] [0; 1]%R;
     nele := NDArray [1] [n];
     beta := 1%R;
     mu := zeros [1];
     sph_vol := 1%R |}.

(** Objects fresh from their constructors. *)
Definition fresh (treatment : string) (n : R) : World R :=
  {| cfg := config1 treatment n;
     orbs := Orbitals_init (config1 treatment n);
     dens := Density_init (config1 treatment n) |}.

(** After [SCF_init] and before [occupy]: eigenfunctions, eigenvalues
    and [lbound] are set, [occnums] is still the zero array of
    [Orbitals.__init__]. *)
Definition solved (treatment : string) (n : R) : World R :=
  {| cfg := config1 treatment n;
     orbs := {| eigfuncs := eigfuncs1; eigvals := eigvals1;
                occnums := zeros [1; 1; 2];
                lbound := NDArray [1; 1; 2] [1; 0]%R |};
     dens := Density_init (config1 treatment n) |}.

(** After [occupy]: one electron in the lower state. *)
Definition occupied (treatment : string) (n : R) : World R :=
  {| cfg := config1 treatment n;
     orbs := {| eigfuncs := eigfuncs1; eigvals := eigvals1;
                occnums := NDArray [1; 1; 2] [1; 0]%R;
                lbound := NDArray [1; 1; 2] [1; 0]%R |};
     dens := Density_init (config1 treatment n) |}.

(** The potential of [SCF_init] for nuclear charge 1 on this grid. *)
Definition v_en1 : ndarray R :=
  NDArray [1; 2] [Rmult (Ropp 1) (Rtrigo_def.exp (Ropp 0));
                  Rmult (Ropp 1) (Rtrigo_def.exp (Ropp 1))].

End Examples.

(** ** The loop bodies, the output routine and one cycle of calls *)

Section StaticKSMore.
Context {F : Type} `{Float F}.
Variable matrix_solve :
  Config F -> Orbitals F -> ndarray F -> ndarray F ->
  result (ndarray F * ndarray F).
Variable chem_pot : Config F -> Orbitals F -> result (ndarray F).
Variable fermi_dirac : F -> F -> F -> F.
Variable fd_int_complete : F -> F -> F -> F.

Local Notation "x <- m ;; k" := (bind m (fun x => k))
  (at level 61, m at next level, right associativity).
Local Notation "m ;;; k" := (bind m (fun _ => k))
  (at level 61, right associativity).

(** The body of the loop of [make_lbound]. *)
Definition lbound_step (l : nat) : M F unit :=
  self <- gets orbs ;;
  col <- lift (getcol (eigvals self) l) ;;
  let v := where_ (lt_scalar col (of_int 0))
                  (fadd (of_int (2 * Z.of_nat l)) (of_int 1))
                  (of_int 0) in
  lb <- lift (setcol (lbound self) l v) ;;
  modify (set_lbound lb).

(** The body of the loop of [calc_occnums]. *)
Definition occ_step (self : Orbitals F) (c : Config F) (mu_ : ndarray F)
           (occ : ndarray F) (i : nat) : M F (ndarray F) :=
  n_i <- lift (item (nele c) i) ;;
  if fneb n_i (of_int 0) then
    lb_i <- lift (getitem (lbound self) i) ;;
    ev_i <- lift (getitem (eigvals self) i) ;;
    mu_i <- lift (item mu_ i) ;;
    prod <- lift (mul lb_i (fermi_dirac_array fermi_dirac ev_i mu_i
                                              (beta c))) ;;
    lift (setitem occ i prod)
  else ret occ.

(** [n * s] for a string [s]. *)
Fixpoint str_repeat (n : nat) (s : string) : string :=
  match n with
  | 0 => EmptyString
  | S n' => String.append s (str_repeat n' s)
  end.

(** [np.column_stack] of arrays with one axis: they become the
    columns of the result and must have one common length.  The
    arrays stacked here are the grid and rows of the density; arrays
    of another rank are rejected. *)
Definition column_stack (l : list (ndarray F)) : result (ndarray F) :=
  match l with
  | [] => Err ValueError
  | a :: _ =>
      match shape a with
      | [n] =>
          if forallb (fun b => if shape_eq_dec (shape b) [n]
                               then true else false) l
          then Ok (tabulate [n; length l] (fun idx =>
                     match idx with
                     | [i; j] => get (nth j l a) [i]
                     | _ => default
                     end))
          else Err ValueError
      | _ => Err ValueError
      end
  end.

(** The call [np.savetxt(fname, data, fmt=..., header=...)].  The file
    system is not part of the store: [write_to_file] returns the call
    it makes. *)
Record SaveTxt := {
  st_fname : string;
  st_data : ndarray F;
  st_fmt : string;
  st_header : string
}.

(** [Density.write_to_file].  The globals [config.spinpol] and
    [config.rgrid], which [Config] does not hold, are arguments. *)
Definition write_to_file (spinpol : bool) (rgrid : ndarray F)
  : M F SaveTxt :=
  self <- gets dens ;;
  let fname := "density.csv"%string in
  if spinpol then
    let headstr :=
      String.append "r" (String.append (str_repeat 7 " ")
      (String.append "n^up_b" (String.append (str_repeat 4 " ")
      (String.append "n^up_ub" (String.append (str_repeat 3 " ")
      (String.append "n^dw_b" (String.append (str_repeat 4 " ")
      (String.append "n^dw_ub" (str_repeat 3 " "))))))))) in
    rb0 <- lift (getitem (rho_bound self) 0) ;;
    ru0 <- lift (getitem (rho_unbound self) 0) ;;
    rb1 <- lift (getitem (rho_bound self) 1) ;;
    ru1 <- lift (getitem (rho_unbound self) 1) ;;
    data <- lift (column_stack [rgrid; rb0; ru0; rb1; ru1]) ;;
    ret {| st_fname := fname; st_data := data;
           st_fmt := "%8.3e"%string; st_header := headstr |}
  else
    let headstr :=
      String.append "r" (String.append (str_repeat 8 " ")
      (String.append "n_b" (String.append (str_repeat 6 " ")
      (String.append "n^_ub" (str_repeat 3 " "))))) in
    rb0 <- lift (getitem (rho_bound self) 0) ;;
    ru0 <- lift (getitem (rho_unbound self) 0) ;;
    data <- lift (column_stack [rgrid; rb0; ru0]) ;;
    ret {| st_fname := fname; st_data := data;
           st_fmt := "%8.3e"%string; st_header := headstr |}.

(** The names in a header line: its maximal runs of characters other
    than the space. *)
Fixpoint names_from (cur : string) (s : string) : list string :=
  match s with
  | EmptyString =>
      match cur with EmptyString => [] | _ => [cur] end
  | String ch s' =>
      if Ascii.eqb ch " "%char then
        match cur with
        | EmptyString => names_from EmptyString s'
        | _ => cur :: names_from EmptyString s'
        end
      else names_from (String.append cur (String ch EmptyString)) s'
  end.

Definition header_names (s : string) : list string :=
  names_from EmptyString s.

(** One cycle as a caller runs it: [SCF_init], then [occupy], then
    [construct]. *)
Definition scf_cycle (atom : Atom F) : M F unit :=
  SCF_init matrix_solve atom ;;;
  occupy chem_pot fermi_dirac ;;;
  construct fd_int_complete.

(** What the callers expect of the libraries: the solver returns
    arrays of the configured shapes, the root finder one potential per
    spin channel. *)
Definition solver_shapes : Prop :=
  forall c o v x, exists ef ev,
    matrix_solve c o v x = Ok (ef, ev) /\
    shape ef = [spindims c; lmax c; nmax c; ngrid c] /\
    shape ev = [spindims c; lmax c; nmax c].

Definition chem_pot_shapes : Prop :=
  forall c o, exists m, chem_pot c o = Ok m /\ shape m = [spindims c].

(** The arrays of a store have the shapes that the constructors give
    them under its configuration. *)
Definition orbs_shaped (c : Config F) (o : Orbitals F) : Prop :=
  shape (eigfuncs o) = [spindims c; lmax c; nmax c; ngrid c] /\
  shape (eigvals o) = [spindims c; lmax c; nmax c] /\
  shape (occnums o) = [spindims c; lmax c; nmax c] /\
  shape (lbound o) = [spindims c; lmax c; nmax c].

Definition dens_shaped (c : Config F) (d : Density F) : Prop :=
  shape (rho_bound d) = [spindims c; ngrid c] /\
  shape (rho_unbound d) = [spindims c; ngrid c] /\
  shape (N_bound d) = [spindims c] /\
  shape (N_unbound d) = [spindims c].

Definition cfg_shaped (c : Config F) : Prop :=
  shape (xgrid c) = [ngrid c] /\
  shape (nele c) = [spindims c] /\
  shape (mu c) = [spindims c].

(** Laws of zero that hold of the reals, and of floating-point numbers
    on finite operands. *)
Definition zero_laws : Prop :=
  (forall x : F, fmul (of_int 0) x = of_int 0) /\
  (forall x : F, fdiv (of_int 0) x = of_int 0) /\
  fadd (of_int 0) (of_int 0) = (of_int 0 : F) /\
  fneb (of_int 0 : F) (of_int 0) = false.

End StaticKSMore.

(** ** Further concrete objects: configurations and arrays that
    disagree, and library stand-ins that fail or fall short *)

Module MoreExamples.
Import Examples.

Definition config_of (ns l ng : nat) (x ne : ndarray R) : Config R :=
  {| spindims := ns; lmax := l; nmax := 2; ngrid := ng;
     unbound := "ideal";
     xgrid := x;
     nele := ne;
     beta := 1%R;
     mu := zeros [ns];
     sph_vol := 1%R |}.

(** Arrays for two values of [l] under [config.lmax = 1]. *)
Definition wide : World R :=
  {| cfg := config1 "ideal" 1;
     orbs := {| eigfuncs := eigfuncs1;
                eigvals := NDArray [1; 2; 2] [-1; 0; -1; 0]%R;
                occnums := zeros [1; 2; 2];
                lbound := NDArray [1; 2; 2] [7; 7; 7; 7]%R |};
     dens := Density_init (config1 "ideal" 1) |}.

(** Arrays for one value of [l] under [config.lmax = 2]. *)
Definition narrow : World R :=
  {| cfg := config_of 1 2 2 (NDArray [2] [0; 1]%R) (NDArray [1] [1]%R);
     orbs := {| eigfuncs := eigfuncs1; eigvals := eigvals1;
                occnums := zeros [1; 1; 2];
                lbound := zeros [1; 1; 2] |};
     dens := Density_init (config1 "ideal" 1) |}.

(** A root finder that returns no potential at all, and a solver that
    fails. *)
Definition chem_pot_none (c : Config R) (o : Orbitals R)
  : result (ndarray R) :=
  Ok (zeros [0]).

Definition matrix_solve_fail (c : Config R) (o : Orbitals R)
           (v x : ndarray R) : result (ndarray R * ndarray R) :=
  Err (LibraryError "numerov.matrix_solve").

(** A solver that answers arrays of the configured shapes: the first
    state of every [l] lies at [-1], all others at [0]. *)
Definition matrix_solve_shaped (c : Config R) (o : Orbitals R)
           (v x : ndarray R) : result (ndarray R * ndarray R) :=
  Ok (zeros [spindims c; lmax c; nmax c; ngrid c],
      tabulate [spindims c; lmax c; nmax c]
        (fun idx => match idx with
                    | [_; _; 0] => (-1)%R
                    | _ => 0%R
                    end)).

(** Three grid points in [config.xgrid] under [ngrid = 2]. *)
Definition long_grid : World R :=
  {| cfg := config_of 1 1 2 (NDArray [3] [0; 1; 2]%R) (NDArray [1] [1]%R);
     orbs := orbs (occupied "ideal" 1);
     dens := Density_init (config1 "ideal" 1) |}.

(** Two spin channels configured, a density built for one. *)
Definition two_channels : World R :=
  {| cfg := config_of 2 1 2 (NDArray [2] [0; 1]%R) (NDArray [2] [1; 1]%R);
     orbs := orbs (occupied "ideal" 1);
     dens := Density_init (config1 "ideal" 1) |}.

(** A density left over from an earlier cycle. *)
Definition dirty : World R :=
  {| cfg := config1 "ideal" 1;
     orbs := orbs (occupied "ideal" 1);
     dens := {| rho_bound := NDArray [1; 2] [5; 5]%R;
                rho_unbound := NDArray [1; 2] [6; 6]%R;
                N_bound := NDArray [1] [7]%R;
                N_unbound := NDArray [1] [8]%R |} |}.

(** A density with two spin channels. *)
Definition polarised : World R :=
  {| cfg := config_of 2 1 2 (NDArray [2] [0; 1]%R) (NDArray [2] [1; 1]%R);
     orbs := orbs (occupied "ideal" 1);
     dens := {| rho_bound := NDArray [2; 2] [1; 2; 3; 4]%R;
                rho_unbound := NDArray [2; 2] [5; 6; 7; 8]%R;
                N_bound := zeros [2];
                N_unbound := zeros [2] |} |}.

(** [config.rgrid] with two and with three points. *)
Definition rgrid2 : ndarray R := NDArray [2] [1; 2]%R.

Definition rgrid3 : ndarray R := NDArray [3] [1; 2; 3]%R.

End MoreExamples.

(** ** The special values of IEEE 754 arithmetic

    The reals extended with the two infinities and the value that is
    not a number, with the rules of IEEE 754 for them: a product of
    zero and an infinity is not a number, and an operation with an
    operand that is not a number gives one.  Finite values are exact
    reals: there is no rounding and no overflow, and there is one
    zero, which divides like the positive zero.  [x ** y] is [x * x]
    for the exponent [2], the only exponent the program uses. *)

Inductive xreal : Type :=
| Fin (x : R)
| PInf
| NInf
| NaN.

Definition xinf (positive : bool) : xreal :=
  if positive then PInf else NInf.

(** The product of the finite [x] and an infinity of the given sign;
    also the quotient of [x] by zero. *)
Definition xscale (positive : bool) (x : R) : xreal :=
  if Req_dec_T x 0 then NaN
  else if Rlt_dec 0 x then xinf positive else xinf (negb positive).

Definition xneg (a : xreal) : xreal :=
  match a with
  | Fin x => Fin (Ropp x)
  | PInf => NInf
  | NInf => PInf
  | NaN => NaN
  end.

Definition xadd (a b : xreal) : xreal :=
  match a, b with
  | NaN, _ | _, NaN => NaN
  | Fin x, Fin y => Fin (Rplus x y)
  | PInf, NInf | NInf, PInf => NaN
  | PInf, _ | _, PInf => PInf
  | NInf, _ | _, NInf => NInf
  end.

Definition xmul (a b : xreal) : xreal :=
  match a, b with
  | NaN, _ | _, NaN => NaN
  | Fin x, Fin y => Fin (Rmult x y)
  | Fin x, PInf | PInf, Fin x => xscale true x
  | Fin x, NInf | NInf, Fin x => xscale false x
  | PInf, PInf | NInf, NInf => PInf
  | PInf, NInf | NInf, PInf => NInf
  end.

Definition xdiv (a b : xreal) : xreal :=
  match a, b with
  | NaN, _ | _, NaN => NaN
  | Fin x, Fin y =>
      if Req_dec_T y 0 then xscale true x else Fin (Rdiv x y)
  | Fin _, PInf | Fin _, NInf => Fin 0%R
  | PInf, Fin y => if Rlt_dec y 0 then NInf else PInf
  | NInf, Fin y => if Rlt_dec y 0 then PInf else NInf
  | PInf, PInf | PInf, NInf | NInf, PInf | NInf, NInf => NaN
  end.

Definition xexp (a : xreal) : xreal :=
  match a with
  | Fin x => Fin (Rtrigo_def.exp x)
  | PInf => PInf
  | NInf => Fin 0%R
  | NaN => NaN
  end.

Definition xsqrt (a : xreal) : xreal :=
  match a with
  | Fin x => if Rlt_dec x 0 then NaN else Fin (sqrt x)
  | PInf => PInf
  | NInf | NaN => NaN
  end.

Definition xpow (a b : xreal) : xreal :=
  match b with
  | Fin y =>
      if Req_dec_T y 2 then xmul a a
      else match a with
           | Fin x => Fin (Rpower x y)
           | _ => NaN
           end
  | _ => NaN
  end.

(** Comparisons with an operand that is not a number: [<] is false and
    [!=] is true. *)
Definition xltb (a b : xreal) : bool :=
  match a, b with
  | NaN, _ | _, NaN => false
  | Fin x, Fin y => R_ltb x y
  | NInf, Fin _ | NInf, PInf | Fin _, PInf => true
  | _, _ => false
  end.

Definition xneb (a b : xreal) : bool :=
  match a, b with
  | Fin x, Fin y => R_neb x y
  | PInf, PInf | NInf, NInf => false
  | _, _ => true
  end.

#[export] Instance Float_xreal : Float xreal := {|
  of_int := fun z => Fin (IZR z);
  fhalf := Fin (Rinv 2);
  fpi := Fin PI;
  fadd := xadd;
  fmul := xmul;
  fdiv := xdiv;
  fpow := xpow;
  fneg := xneg;
  fexp := xexp;
  fsqrt := xsqrt;
  fltb := xltb;
  fneb := xneb
|}.

Module SpecialValues.




End SpecialValues.

(** * Facts about the array model *)

Section ArrayFacts.


Lemma size_pos_in_range idx sh : in_range idx sh -> 0 < size sh.
Proof.
  induction 1 as [| i d idx sh Hid _ IH]; simpl; [lia |].
  apply Nat.mul_pos_pos; lia.
Qed.

Lemma ravel_lt idx sh : in_range idx sh -> ravel sh idx < size sh.
Proof.
  induction 1 as [| i d idx sh Hid _ IH]; simpl; [lia |].
  nia.
Qed.

Lemma unravel_ravel idx sh : in_range idx sh -> unravel sh (ravel sh idx) = idx.
Proof.
  induction 1 as [| i d idx sh Hid Hrest IH]; simpl; [reflexivity |].
  pose proof (ravel_lt Hrest) as Hlt.
  assert (Hne : size sh <> 0) by lia.
  rewrite Nat.add_comm, Nat.div_add, Nat.Div0.mod_add by assumption.
  rewrite Nat.div_small, Nat.mod_small by assumption.
  simpl. now rewrite IH.
Qed.

Lemma unravel_in_range sh k : k < size sh -> in_range (unravel sh k) sh.
Proof.
  revert k. induction sh as [| d sh IH]; intros k Hk; simpl in *.
  - constructor.
  - assert (Hne : size sh <> 0) by (intros E; rewrite E in Hk; lia).
    constructor.
    + apply Nat.Div0.div_lt_upper_bound. lia.
    + apply IH. apply Nat.mod_upper_bound. assumption.
Qed.

Lemma shape_tabulate {A} sh (f : list nat -> A) : shape (tabulate sh f) = sh.
Proof. reflexivity. Qed.

Lemma get_tabulate {A} `{Default A} sh (f : list nat -> A) idx :
  in_range idx sh -> get (tabulate sh f) idx = f idx.
Proof.
  intros Hin. unfold get, tabulate; simpl.
  pose proof (ravel_lt Hin) as Hlt.
  rewrite nth_indep with (d' := f (unravel sh 0))
    by (rewrite length_map, length_seq; assumption).
  rewrite map_nth with (f := fun k => f (unravel sh k)).
  rewrite seq_nth by assumption. simpl.
  now rewrite unravel_ravel.
Qed.

(** Two tabulations of one shape agree when their generators agree on
    every index of that shape. *)
Lemma tabulate_ext {A} sh (f g : list nat -> A) :
  (forall idx, in_range idx sh -> f idx = g idx) ->
  tabulate sh f = tabulate sh g.
Proof.
  intros Hfg. unfold tabulate. f_equal.
  apply map_ext_in. intros k Hk. apply in_seq in Hk.
  apply Hfg, unravel_in_range. lia.
Qed.


Lemma wf_tabulate {A} `{Default A} sh (f : list nat -> A) :
  wf (tabulate sh f).
Proof.
  unfold wf. rewrite shape_tabulate. apply tabulate_ext.
  intros idx Hin. now rewrite get_tabulate.
Qed.

Lemma ndarray_ext {A} `{Default A} (a b : ndarray A) :
  wf a -> wf b -> shape a = shape b ->
  (forall idx, in_range idx (shape a) -> get a idx = get b idx) ->
  a = b.
Proof.
  intros Ha Hb Hsh Hget. rewrite Ha, Hb, <- Hsh.
  now apply tabulate_ext.
Qed.

(** *** Broadcasting *)

Lemma bshape_rev_prefix r r' : bshape_rev r (r ++ r') = Some (r ++ r').
Proof.
  induction r as [| d r IH]; simpl; [now destruct r' |].
  now rewrite IH, Nat.eqb_refl.
Qed.

Lemma broadcast_shapes_suffix pre sh :
  broadcast_shapes sh (pre ++ sh) = Some (pre ++ sh).
Proof.
  unfold broadcast_shapes.
  rewrite rev_app_distr, bshape_rev_prefix. simpl.
  now rewrite <- rev_app_distr, rev_involutive.
Qed.

Lemma broadcast_shapes_same sh : broadcast_shapes sh sh = Some sh.
Proof. apply (broadcast_shapes_suffix []). Qed.

Lemma broadcast_shapes_scalar sh : broadcast_shapes [] sh = Some sh.
Proof.
  pose proof (broadcast_shapes_suffix sh []) as E.
  now rewrite app_nil_r in E.
Qed.

Lemma in_range_length idx sh : in_range idx sh -> length idx = length sh.
Proof. apply Forall2_length. Qed.

Lemma bidx_suffix pre idx sh :
  in_range idx sh -> bidx sh (pre ++ idx) = idx.
Proof.
  intros Hin. unfold bidx.
  rewrite length_app, <- (in_range_length Hin).
  replace (length pre + length idx - length idx) with (length pre) by lia.
  rewrite skipn_app, skipn_all, Nat.sub_diag. simpl.
  induction Hin as [| i d idx sh Hid _ IH]; simpl; [reflexivity |].
  rewrite IH. f_equal.
  destruct (Nat.eqb_spec d 1); lia.
Qed.

Lemma bidx_same idx sh : in_range idx sh -> bidx sh idx = idx.
Proof. apply (bidx_suffix []). Qed.

Lemma in_range_cons i d idx sh :
  in_range (i :: idx) (d :: sh) <-> i < d /\ in_range idx sh.
Proof.
  split.
  - intros Hin. inversion Hin; subst. now split.
  - intros [Hi Hin]. now constructor.
Qed.

Lemma in_range_nil_r idx : in_range idx [] <-> idx = [].
Proof.
  split.
  - intros Hin. now inversion Hin.
  - intros ->. constructor.
Qed.

End ArrayFacts.

(** *** What each array operation returns *)

Section OpFacts.
Context {A : Type} `{Default A}.

Lemma get_amap {B} `{Default B} (f : A -> B) (a : ndarray A) idx :
  in_range idx (shape a) -> get (amap f a) idx = f (get a idx).
Proof. intros Hin. unfold amap. now rewrite get_tabulate. Qed.

Lemma wf_amap {B} `{Default B} (f : A -> B) (a : ndarray A) :
  wf (amap f a).
Proof. apply wf_tabulate. Qed.

Lemma get_scalar (x : A) : get (scalar x) [] = x.
Proof. reflexivity. Qed.

Lemma binop_spec {B C} `{Default B} `{Default C}
      (f : A -> B -> C) (a : ndarray A) (b : ndarray B) pre :
  shape b = pre ++ shape a ->
  exists r, binop f a b = Ok r /\ shape r = shape b /\ wf r /\
    forall p idx, in_range idx (shape a) -> in_range (p ++ idx) (shape b) ->
      get r (p ++ idx) = f (get a idx) (get b (p ++ idx)).
Proof.
  intros Hsh. unfold binop.
  rewrite Hsh, broadcast_shapes_suffix, <- Hsh.
  eexists. split; [reflexivity |].
  split; [reflexivity |]. split; [apply wf_tabulate |].
  intros p idx Ha Hb. rewrite get_tabulate by assumption.
  now rewrite (bidx_suffix p Ha), (bidx_same Hb).
Qed.

Lemma getitem_spec (a : ndarray A) i d sh :
  shape a = d :: sh -> i < d ->
  exists r, getitem a i = Ok r /\ shape r = sh /\ wf r /\
    forall idx, in_range idx sh -> get r idx = get a (i :: idx).
Proof.
  intros Hsh Hi. unfold getitem. rewrite Hsh.
  apply Nat.ltb_lt in Hi. rewrite Hi.
  eexists. split; [reflexivity |].
  split; [reflexivity |]. split; [apply wf_tabulate |].
  intros idx Hin. now rewrite get_tabulate.
Qed.

Lemma item_spec (a : ndarray A) i d :
  shape a = [d] -> i < d -> item a i = Ok (get a [i]).
Proof.
  intros Hsh Hi. unfold item. rewrite Hsh.
  apply Nat.ltb_lt in Hi. now rewrite Hi.
Qed.

Lemma setitem_spec (a v : ndarray A) i d sh :
  shape a = d :: sh -> shape v = sh -> i < d ->
  exists r, setitem a i v = Ok r /\ shape r = d :: sh /\ wf r /\
    forall j rest, in_range (j :: rest) (d :: sh) ->
      get r (j :: rest) = if j =? i then get v rest else get a (j :: rest).
Proof.
  intros Hsh Hv Hi. unfold setitem. rewrite Hsh, Hv.
  apply Nat.ltb_lt in Hi. rewrite Hi, broadcast_shapes_same.
  destruct (shape_eq_dec sh sh) as [_ | Hne]; [| contradiction].
  eexists. split; [reflexivity |].
  split; [reflexivity |]. split; [apply wf_tabulate |].
  intros j rest Hin. rewrite get_tabulate by assumption.
  apply in_range_cons in Hin as [_ Hrest].
  now rewrite (bidx_same Hrest).
Qed.

Lemma setitem_scalar_spec (a : ndarray A) (x : A) i d sh :
  shape a = d :: sh -> i < d ->
  exists r, setitem a i (scalar x) = Ok r /\ shape r = d :: sh /\ wf r /\
    forall j rest, in_range (j :: rest) (d :: sh) ->
      get r (j :: rest) = if j =? i then x else get a (j :: rest).
Proof.
  intros Hsh Hi. unfold setitem. rewrite Hsh.
  apply Nat.ltb_lt in Hi. rewrite Hi. simpl shape.
  rewrite broadcast_shapes_scalar.
  destruct (shape_eq_dec sh sh) as [_ | Hne]; [| contradiction].
  eexists. split; [reflexivity |].
  split; [reflexivity |]. split; [apply wf_tabulate |].
  intros j rest Hin. now rewrite get_tabulate.
Qed.

Lemma item_inv (a : ndarray A) i x :
  item a i = Ok x -> exists d, shape a = [d] /\ i < d /\ x = get a [i].
Proof.
  unfold item. destruct (shape a) as [| d [| d' sh]]; try discriminate.
  destruct (Nat.ltb_spec i d) as [Hi | Hi]; [| discriminate].
  intros E. injection E as <-. now exists d.
Qed.

Lemma setitem_scalar_inv (a a1 : ndarray A) (x : A) i :
  setitem a i (scalar x) = Ok a1 ->
  exists d sh, shape a = d :: sh /\ i < d /\ shape a1 = d :: sh /\ wf a1 /\
    forall j rest, in_range (j :: rest) (d :: sh) ->
      get a1 (j :: rest) = if j =? i then x else get a (j :: rest).
Proof.
  intros E. destruct (shape a) as [| d sh] eqn:Hsh.
  { unfold setitem in E. now rewrite Hsh in E. }
  destruct (Nat.ltb_spec i d) as [Hi | Hi].
  - destruct (setitem_scalar_spec a x Hsh Hi) as (r & Er & Hshr & Hwfr & Hr).
    rewrite E in Er. injection Er as Er. subst r.
    exists d, sh. split; [reflexivity |].
    repeat (split; [assumption |]). exact Hr.
  - unfold setitem in E. rewrite Hsh in E.
    apply Nat.ltb_ge in Hi. now rewrite Hi in E.
Qed.


Lemma setitem_scalar_fix (a : ndarray A) i x :
  row_const a i x -> setitem a i (scalar x) = Ok a.
Proof.
  intros (d & sh & Hsh & Hi & Hwf & Hrow).
  destruct (setitem_scalar_spec a x Hsh Hi) as (r & Er & Hshr & Hwfr & Hr).
  rewrite Er. f_equal. apply ndarray_ext; try assumption; [congruence |].
  rewrite Hshr. intros idx Hin.
  inversion Hin as [| j dd rest sh' Hj Hrest]; subst.
  rewrite Hr by assumption.
  destruct (Nat.eqb_spec j i) as [-> | Hne]; [| reflexivity].
  symmetry. now apply Hrow.
Qed.

Lemma row_const_set_same (a a1 : ndarray A) i x :
  setitem a i (scalar x) = Ok a1 -> row_const a1 i x.
Proof.
  intros E. apply setitem_scalar_inv in E
    as (d & sh & Hsh & Hi & Hsh1 & Hwf1 & Hget).
  exists d, sh. repeat (split; [assumption |]).
  intros rest Hrest. rewrite Hget by now constructor.
  now rewrite Nat.eqb_refl.
Qed.

Lemma row_const_set_other (a a1 : ndarray A) i j x y :
  setitem a j (scalar y) = Ok a1 -> row_const a i x -> i <> j ->
  row_const a1 i x.
Proof.
  intros E (d & sh & Hsh & Hi & _ & Hrow) Hne.
  apply setitem_scalar_inv in E
    as (d' & sh' & Hsh' & Hj & Hsh1 & Hwf1 & Hget).
  rewrite Hsh in Hsh'. injection Hsh' as <- <-.
  exists d, sh. repeat (split; [assumption |]).
  intros rest Hrest. rewrite Hget by now constructor.
  destruct (Nat.eqb_spec i j) as [Heq | _]; [contradiction |].
  now apply Hrow.
Qed.

Lemma getcol_spec (a : ndarray A) l d0 d1 sh :
  shape a = d0 :: d1 :: sh -> l < d1 ->
  exists r, getcol a l = Ok r /\ shape r = d0 :: sh /\ wf r /\
    forall s rest, in_range (s :: rest) (d0 :: sh) ->
      get r (s :: rest) = get a (s :: l :: rest).
Proof.
  intros Hsh Hl. unfold getcol. rewrite Hsh.
  apply Nat.ltb_lt in Hl. rewrite Hl.
  eexists. split; [reflexivity |].
  split; [reflexivity |]. split; [apply wf_tabulate |].
  intros s rest Hin. now rewrite get_tabulate.
Qed.

Lemma setcol_spec (a v : ndarray A) l d0 d1 sh :
  shape a = d0 :: d1 :: sh -> shape v = d0 :: sh -> l < d1 ->
  exists r, setcol a l v = Ok r /\ shape r = d0 :: d1 :: sh /\ wf r /\
    forall s j rest, in_range (s :: j :: rest) (d0 :: d1 :: sh) ->
      get r (s :: j :: rest) =
        if j =? l then get v (s :: rest) else get a (s :: j :: rest).
Proof.
  intros Hsh Hv Hl. unfold setcol. rewrite Hsh, Hv.
  apply Nat.ltb_lt in Hl. rewrite Hl, broadcast_shapes_same.
  destruct (shape_eq_dec (d0 :: sh) (d0 :: sh)) as [_ | Hne];
    [| contradiction].
  eexists. split; [reflexivity |].
  split; [reflexivity |]. split; [apply wf_tabulate |].
  intros s j rest Hin. rewrite get_tabulate by assumption.
  apply in_range_cons in Hin as [Hs Hin].
  apply in_range_cons in Hin as [_ Hrest].
  assert (Hsr : in_range (s :: rest) (d0 :: sh)) by now constructor.
  now rewrite (bidx_same Hsr).
Qed.

Lemma get_where (c : ndarray bool) (x y : A) idx :
  in_range idx (shape c) ->
  get (where_ c x y) idx = if get c idx then x else y.
Proof. intros Hin. unfold where_. now rewrite get_tabulate. Qed.
End OpFacts.

Section NumericFacts.
Context {F : Type} `{Float F}.

Lemma get_zeros sh idx :
  in_range idx sh -> get (zeros sh) idx = of_int 0.
Proof. intros Hin. unfold zeros. now rewrite get_tabulate. Qed.

Lemma fold_left_ext_in {X Y} (f g : X -> Y -> X) (l : list Y) :
  (forall y, In y l -> forall x, f x y = g x y) ->
  forall x, fold_left f l x = fold_left g l x.
Proof.
  induction l as [| y l IH]; intros Hfg x; simpl; [reflexivity |].
  rewrite (Hfg y) by now left.
  apply IH. intros y' Hy'. apply Hfg. now right.
Qed.

Lemma fsum2_ext nj nk (f g : nat -> nat -> F) :
  (forall j k, j < nj -> k < nk -> f j k = g j k) ->
  fsum2 nj nk f = fsum2 nj nk g.
Proof.
  intros Hfg. unfold fsum2. apply fold_left_ext_in.
  intros [j k] Hin acc. apply in_prod_iff in Hin as [Hj Hk].
  apply in_seq in Hj, Hk. simpl. rewrite Hfg by lia. reflexivity.
Qed.

Lemma einsum_spec (a b : ndarray F) ni nj nk nl :
  shape a = [ni; nj; nk] -> shape b = [ni; nj; nk; nl] ->
  exists r, einsum_ijk_ijkl_il a b = Ok r /\ shape r = [ni; nl] /\ wf r /\
    forall i l, i < ni -> l < nl ->
      get r [i; l] =
        fsum2 nj nk (fun j k => fmul (get a [i; j; k]) (get b [i; j; k; l])).
Proof.
  intros Ha Hb. unfold einsum_ijk_ijkl_il. rewrite Ha, Hb.
  rewrite !Nat.eqb_refl. simpl.
  eexists. split; [reflexivity |].
  split; [reflexivity |]. split; [apply wf_tabulate |].
  intros i l Hi Hl. rewrite get_tabulate; [reflexivity |].
  repeat constructor; assumption.
Qed.

Lemma sum_axis12_spec (a : ndarray F) ni nj nk :
  shape a = [ni; nj; nk] ->
  exists r, sum_axis12 a = Ok r /\ shape r = [ni] /\ wf r /\
    forall i, i < ni ->
      get r [i] = fsum2 nj nk (fun j k => get a [i; j; k]).
Proof.
  intros Ha. unfold sum_axis12. rewrite Ha.
  eexists. split; [reflexivity |].
  split; [reflexivity |]. split; [apply wf_tabulate |].
  intros i Hi. rewrite get_tabulate; [reflexivity |].
  repeat constructor; assumption.
Qed.
End NumericFacts.


(** * Facts about statements *)

Section StatementFacts.
Context {F : Type} `{Float F}.

Lemma bind_gets {A B} (f : World F -> A) (k : A -> M F B) w :
  bind (gets f) k w = k (f w) w.
Proof. reflexivity. Qed.

Lemma bind_modify {B} (f : World F -> World F) (k : unit -> M F B) w :
  bind (modify f) k w = k tt (f w).
Proof. reflexivity. Qed.

Lemma bind_ret {A B} (a : A) (k : A -> M F B) w : bind (ret a) k w = k a w.
Proof. reflexivity. Qed.

Lemma bind_lift_ok {A B} (r : result A) (a : A) (k : A -> M F B) w :
  r = Ok a -> bind (lift r) k w = k a w.
Proof. intros ->. reflexivity. Qed.

Lemma bind_lift_err {A B} (r : result A) e (k : A -> M F B) w :
  r = Err e -> bind (lift r) k w = Raise e w.
Proof. intros ->. reflexivity. Qed.

Lemma bind_return {A B} (m : M F A) (k : A -> M F B) a w w' :
  m w = Return a w' -> bind m k w = k a w'.
Proof. intros E. unfold bind. now rewrite E. Qed.

Lemma bind_raise {A B} (m : M F A) (k : A -> M F B) e w w' :
  m w = Raise e w' -> bind m k w = Raise e w'.
Proof. intros E. unfold bind. now rewrite E. Qed.

Lemma lift_ok {A} (r : result A) a (w : World F) :
  r = Ok a -> lift r w = Return a w.
Proof. intros ->. reflexivity. Qed.

(** The invariant rule for a loop over a list: the invariant speaks of
    the indices already visited. *)
Lemma for_invariant (Inv : list nat -> World F -> Prop)
      (body : nat -> M F unit) l (w : World F) :
  Inv [] w ->
  (forall pre i post w0, l = pre ++ i :: post -> Inv pre w0 ->
     exists w1, body i w0 = Return tt w1 /\ Inv (pre ++ [i]) w1) ->
  exists w', for_ l body w = Return tt w' /\ Inv l w'.
Proof.
  intros Hinit Hstep.
  assert (Hgen : forall post pre w0, l = pre ++ post -> Inv pre w0 ->
            exists w', for_ post body w0 = Return tt w' /\ Inv l w').
  { induction post as [| i post IH]; intros pre w0 Hl Hinv.
    - rewrite app_nil_r in Hl. subst pre. now exists w0.
    - destruct (Hstep pre i post w0 Hl Hinv) as (w1 & Hbody & Hinv1).
      destruct (IH (pre ++ [i]) w1) as (w' & Hrun & Hinv');
        [now rewrite <- app_assoc | assumption |].
      exists w'. split; [| assumption].
      simpl. now erewrite bind_return by exact Hbody. }
  now apply (Hgen l [] w).
Qed.

(** The same rule for a loop that updates a local variable and leaves
    the store alone. *)
Lemma for_local_invariant {A} (Inv : list nat -> A -> Prop)
      (body : A -> nat -> M F A) l a (w : World F) :
  Inv [] a ->
  (forall pre i post a0, l = pre ++ i :: post -> Inv pre a0 ->
     exists a1, body a0 i w = Return a1 w /\ Inv (pre ++ [i]) a1) ->
  exists a', for_local l body a w = Return a' w /\ Inv l a'.
Proof.
  intros Hinit Hstep.
  assert (Hgen : forall post pre a0, l = pre ++ post -> Inv pre a0 ->
            exists a', for_local post body a0 w = Return a' w /\ Inv l a').
  { induction post as [| i post IH]; intros pre a0 Hl Hinv.
    - rewrite app_nil_r in Hl. subst pre. now exists a0.
    - destruct (Hstep pre i post a0 Hl Hinv) as (a1 & Hbody & Hinv1).
      destruct (IH (pre ++ [i]) a1) as (a' & Hrun & Hinv');
        [now rewrite <- app_assoc | assumption |].
      exists a'. split; [| assumption].
      simpl. now erewrite bind_return by exact Hbody. }
  now apply (Hgen l [] a).
Qed.

Lemma bind_return_inv {A B} (m : M F A) (k : A -> M F B) b w w' :
  bind m k w = Return b w' ->
  exists a w0, m w = Return a w0 /\ k a w0 = Return b w'.
Proof.
  unfold bind. destruct (m w) as [a w0 | e w0]; [| discriminate].
  intros E. now exists a, w0.
Qed.

Lemma lift_return_inv {A} (r : result A) a (w w' : World F) :
  lift r w = Return a w' -> r = Ok a /\ w' = w.
Proof.
  unfold lift. destruct r as [a0 | e]; [| discriminate].
  intros E. injection E as -> ->. now split.
Qed.

(** The invariant rule for a loop that is known to have completed. *)
Lemma for_return_inv (Inv : list nat -> World F -> Prop)
      (body : nat -> M F unit) l (w : World F) :
  Inv [] w ->
  (forall pre i post w0 w1, l = pre ++ i :: post -> Inv pre w0 ->
     body i w0 = Return tt w1 -> Inv (pre ++ [i]) w1) ->
  forall w', for_ l body w = Return tt w' -> Inv l w'.
Proof.
  intros Hinit Hstep.
  assert (Hgen : forall post pre w0 w', l = pre ++ post -> Inv pre w0 ->
            for_ post body w0 = Return tt w' -> Inv l w').
  { induction post as [| i post IH]; intros pre w0 w' Hl Hinv Hrun.
    - rewrite app_nil_r in Hl. subst pre.
      simpl in Hrun. injection Hrun as <-. assumption.
    - simpl in Hrun.
      apply bind_return_inv in Hrun as ([] & w1 & Hbody & Hrest).
      apply (IH (pre ++ [i]) w1 w'); [now rewrite <- app_assoc | | assumption].
      now apply (Hstep pre i post w0 w1). }
  intros w'. now apply (Hgen l [] w w').
Qed.

Lemma range_split n pre i post : range n = pre ++ i :: post -> i < n.
Proof.
  intros E. assert (Hin : In i (range n)).
  { rewrite E. apply in_or_app. right. now left. }
  apply in_seq in Hin. lia.
Qed.

(** *** Statements that leave part of the store alone *)


Lemma preserves_ret {A} (P : World F -> Prop) (a : A) : preserves P (ret a).
Proof. intros w Hw. exact Hw. Qed.

Lemma preserves_gets {A} (P : World F -> Prop) (f : World F -> A) :
  preserves P (gets f).
Proof. intros w Hw. exact Hw. Qed.

Lemma preserves_lift {A} (P : World F -> Prop) (r : result A) :
  preserves P (lift r).
Proof. intros w Hw. unfold lift. now destruct r. Qed.

Lemma preserves_modify (P : World F -> Prop) (f : World F -> World F) :
  (forall w, P w -> P (f w)) -> preserves P (modify f).
Proof. intros Hf w Hw. now apply Hf. Qed.

Lemma preserves_bind {A B} (P : World F -> Prop) (m : M F A) (k : A -> M F B) :
  preserves P m -> (forall a, preserves P (k a)) -> preserves P (bind m k).
Proof.
  intros Hm Hk w Hw. unfold bind. specialize (Hm w Hw).
  destruct (m w) as [a w' | e w']; simpl in *; [now apply Hk | assumption].
Qed.

Lemma preserves_for (P : World F -> Prop) (body : nat -> M F unit) l :
  (forall i, preserves P (body i)) -> preserves P (for_ l body).
Proof.
  intros Hbody. induction l as [| i l IH]; simpl.
  - apply preserves_ret.
  - apply preserves_bind; [apply Hbody | intros _; exact IH].
Qed.

End StatementFacts.


(** * class Orbitals: what the methods compute *)

Section OrbitalsFacts.
Context {F : Type} `{Float F}.


(** [make_lbound] on arrays of one common shape: it completes, touches
    only [lbound], and fills every entry of it. *)
Lemma make_lbound_run (w : World F) ns nl nn :
  lmax (cfg w) = nl ->
  shape (eigvals (orbs w)) = [ns; nl; nn] ->
  shape (lbound (orbs w)) = [ns; nl; nn] ->
  exists lb,
    make_lbound w = Return tt (set_lbound lb w) /\
    shape lb = [ns; nl; nn] /\
    forall s l n, s < ns -> l < nl -> n < nn ->
      get lb [s; l; n] = lbound_entry l (get (eigvals (orbs w)) [s; l; n]).
Proof.
  intros Hlmax Hev Hlb.
  set (Inv := fun (done : list nat) (w0 : World F) =>
    exists lb, w0 = set_lbound lb w /\ shape lb = [ns; nl; nn] /\
      forall s l n, s < ns -> l < nl -> n < nn -> In l done ->
        get lb [s; l; n] = lbound_entry l (get (eigvals (orbs w)) [s; l; n])).
  unfold make_lbound. rewrite bind_gets, Hlmax.
  destruct (@for_invariant F Inv
    (fun l => bind (gets orbs) (fun self =>
       bind (lift (getcol (eigvals self) l)) (fun col =>
         bind (lift (setcol (lbound self) l
                 (where_ (lt_scalar col (of_int 0))
                    (fadd (of_int (2 * Z.of_nat l)) (of_int 1)) (of_int 0))))
              (fun lb => modify (set_lbound lb)))))
    (range nl) w) as (w' & Hrun & lb & -> & Hsh & Hget).
  - exists (lbound (orbs w)). split; [now destruct w as [c [] d] |].
    split; [assumption |]. intros s l n _ _ _ [].
  - intros pre i post w0 Hsplit (lb0 & -> & Hsh0 & Hget0).
    apply range_split in Hsplit.
    rewrite bind_gets. simpl orbs. simpl eigvals. simpl lbound.
    destruct (getcol_spec (eigvals (orbs w)) Hev Hsplit)
      as (col & Ecol & Hshcol & _ & Hcol).
    erewrite bind_lift_ok by exact Ecol.
    destruct (setcol_spec lb0
                (where_ (lt_scalar col (of_int 0))
                   (fadd (of_int (2 * Z.of_nat i)) (of_int 1)) (of_int 0))
                Hsh0 Hshcol Hsplit)
      as (lb1 & Eset & Hsh1 & _ & Hlb1).
    erewrite bind_lift_ok by exact Eset.
    eexists. split; [reflexivity |].
    exists lb1. split; [reflexivity |]. split; [assumption |].
    intros s l n Hs Hl Hn Hin.
    rewrite Hlb1 by (repeat constructor; assumption).
    destruct (Nat.eqb_spec l i) as [-> | Hne].
    + assert (Hsn : in_range [s; n] (shape col))
        by (rewrite Hshcol; repeat constructor; assumption).
      rewrite get_where by exact Hsn.
      unfold lt_scalar. rewrite get_amap by exact Hsn.
      rewrite Hcol by (repeat constructor; assumption).
      reflexivity.
    + apply Hget0; try assumption.
      apply in_app_or in Hin as [Hin | [-> | []]]; [assumption | contradiction].
  - exists lb. split; [exact Hrun |]. split; [assumption |].
    intros s l n Hs Hl Hn. apply Hget; try assumption.
    apply in_seq. lia.
Qed.

(** C5: after [make_lbound], every entry [lbound[s,l,n]] is [2l+1] when
    [eigvals[s,l,n] < 0] holds and [0] when it does not, in particular
    when the eigenvalue is greater than or equal to zero.  The method
    completes and changes nothing but [lbound]. *)
Theorem make_lbound_mask (w : World F) ns nl nn :
  lmax (cfg w) = nl ->
  shape (eigvals (orbs w)) = [ns; nl; nn] ->
  shape (lbound (orbs w)) = [ns; nl; nn] ->
  exists w',
    make_lbound w = Return tt w' /\
    cfg w' = cfg w /\ dens w' = dens w /\
    eigfuncs (orbs w') = eigfuncs (orbs w) /\
    eigvals (orbs w') = eigvals (orbs w) /\
    occnums (orbs w') = occnums (orbs w) /\
    forall s l n, s < ns -> l < nl -> n < nn ->
      (fltb (get (eigvals (orbs w)) [s; l; n]) (of_int 0) = true ->
       get (lbound (orbs w')) [s; l; n] =
         fadd (of_int (2 * Z.of_nat l)) (of_int 1)) /\
      (fltb (get (eigvals (orbs w)) [s; l; n]) (of_int 0) = false ->
       get (lbound (orbs w')) [s; l; n] = of_int 0).
Proof.
  intros Hlmax Hev Hlb.
  destruct (make_lbound_run w Hlmax Hev Hlb) as (lb & Hrun & _ & Hget).
  exists (set_lbound lb w). split; [exact Hrun |].
  repeat (split; [reflexivity |]).
  intros s l n Hs Hl Hn. simpl.
  rewrite (Hget s l n Hs Hl Hn). unfold lbound_entry.
  split; intros ->; reflexivity.
Qed.

Variable chem_pot : Config F -> Orbitals F -> result (ndarray F).
Variable fermi_dirac : F -> F -> F -> F.


Lemma calc_occnums_run (w : World F) (m : ndarray F) ns nl nn :
  spindims (cfg w) = ns ->
  shape (nele (cfg w)) = [ns] ->
  shape m = [ns] ->
  shape (eigvals (orbs w)) = [ns; nl; nn] ->
  shape (lbound (orbs w)) = [ns; nl; nn] ->
  exists occ,
    calc_occnums fermi_dirac m w = Return occ w /\
    shape occ = [ns; nl; nn] /\ wf occ /\
    forall s l n, s < ns -> l < nl -> n < nn ->
      get occ [s; l; n] = occnum_entry fermi_dirac (cfg w) (orbs w) m s l n.
Proof.
  intros Hns Hnele Hm Hev Hlb.
  set (Inv := fun (done : list nat) (occ : ndarray F) =>
    shape occ = [ns; nl; nn] /\ wf occ /\
    forall s l n, s < ns -> l < nl -> n < nn ->
      (In s done ->
       get occ [s; l; n] = occnum_entry fermi_dirac (cfg w) (orbs w) m s l n) /\
      (~ In s done -> get occ [s; l; n] = of_int 0)).
  unfold calc_occnums. rewrite !bind_gets, Hns.
  match goal with
  | |- exists occ, for_local _ ?body ?a w = _ /\ _ =>
      destruct (@for_local_invariant F _ Inv body (range ns) a w)
        as (occ & Hrun & Hsh & Hwf & Hget)
  end.
  - unfold zeros_like. rewrite Hev.
    split; [reflexivity |]. split; [apply wf_tabulate |].
    intros s l n Hs Hl Hn. split; [intros [] |]. intros _.
    apply get_zeros. repeat constructor; assumption.
  - intros pre i post occ0 Hsplit (Hsh0 & Hwf0 & Hget0).
    apply range_split in Hsplit.
    erewrite bind_lift_ok by exact (item_spec (nele (cfg w)) Hnele Hsplit).
    destruct (fneb (get (nele (cfg w)) [i]) (of_int 0)) eqn:Hne.
    + destruct (getitem_spec (lbound (orbs w)) Hlb Hsplit)
        as (lb_i & Elb & Hshlb & _ & Hlbi).
      destruct (getitem_spec (eigvals (orbs w)) Hev Hsplit)
        as (ev_i & Eev & Hshev & _ & Hevi).
      erewrite bind_lift_ok by exact Elb.
      erewrite bind_lift_ok by exact Eev.
      erewrite bind_lift_ok by exact (item_spec m Hm Hsplit).
      destruct (@binop_spec F _ F F _ _ fmul lb_i
                  (fermi_dirac_array fermi_dirac ev_i (get m [i])
                     (beta (cfg w))) [])
        as (prod & Eprod & Hshprod & _ & Hprod).
      { simpl. now rewrite Hshlb, Hshev. }
      unfold mul. erewrite bind_lift_ok by exact Eprod.
      simpl shape in Hshprod. rewrite Hshev in Hshprod.
      destruct (setitem_spec occ0 prod Hsh0 Hshprod Hsplit)
        as (occ1 & Eset & Hsh1 & Hwf1 & Hget1).
      exists occ1. split; [now apply lift_ok |].
      split; [assumption |]. split; [assumption |].
      intros s l n Hs Hl Hn.
      rewrite Hget1 by (repeat constructor; assumption).
      destruct (Nat.eqb_spec s i) as [-> | Hsi].
      * split.
        -- intros _.
           assert (Hln : in_range [l; n] [nl; nn])
             by (repeat constructor; assumption).
           pose proof (Hprod [] [l; n]) as Hp. simpl app in Hp.
           rewrite Hp; [| now rewrite Hshlb | simpl; now rewrite Hshev].
           unfold fermi_dirac_array.
           rewrite get_amap by now rewrite Hshev.
           rewrite Hlbi, Hevi by assumption.
           unfold occnum_entry. now rewrite Hne.
        -- intros Hnin. exfalso. apply Hnin, in_or_app. right. now left.
      * destruct (Hget0 s l n Hs Hl Hn) as [Hin0 Hnin0]. split.
        -- intros Hin. apply Hin0.
           apply in_app_or in Hin as [Hin | [-> | []]];
             [assumption | contradiction].
        -- intros Hnin. apply Hnin0. intros Hin.
           apply Hnin, in_or_app. now left.
    + exists occ0. split; [reflexivity |].
      split; [assumption |]. split; [assumption |].
      intros s l n Hs Hl Hn.
      destruct (Hget0 s l n Hs Hl Hn) as [Hin0 Hnin0]. split.
      * intros Hin.
        apply in_app_or in Hin as [Hin | [-> | []]]; [now apply Hin0 |].
        destruct (in_dec Nat.eq_dec s pre) as [Hin | Hnin];
          [now apply Hin0 |].
        rewrite Hnin0 by assumption.
        unfold occnum_entry. now rewrite Hne.
      * intros Hnin. apply Hnin0. intros Hin.
        apply Hnin, in_or_app. now left.
  - exists occ. split; [exact Hrun |].
    split; [assumption |]. split; [assumption |].
    intros s l n Hs Hl Hn.
    apply (Hget s l n Hs Hl Hn). apply in_seq. lia.
Qed.

(** C3: when the chemical-potential routine returns the potentials [m],
    [occupy] stores them in [config.mu] and sets, for every spin channel
    [s] whose electron count satisfies [nele[s] != 0] and every [(l, n)],
    [occnums[s,l,n] = lbound[s,l,n] * fermi_dirac(eigvals[s,l,n], m[s],
    beta)]; for every spin channel whose electron count is zero,
    [occnums[s,l,n] = 0] whatever the eigenvalues are. *)
Theorem occupy_occnums (w : World F) (m : ndarray F) ns nl nn :
  spindims (cfg w) = ns ->
  shape (nele (cfg w)) = [ns] ->
  shape (eigvals (orbs w)) = [ns; nl; nn] ->
  shape (lbound (orbs w)) = [ns; nl; nn] ->
  chem_pot (cfg w) (orbs w) = Ok m ->
  shape m = [ns] ->
  exists w',
    occupy chem_pot fermi_dirac w = Return true w' /\
    mu (cfg w') = m /\
    eigvals (orbs w') = eigvals (orbs w) /\
    lbound (orbs w') = lbound (orbs w) /\
    forall s l n, s < ns -> l < nl -> n < nn ->
      (fneb (get (nele (cfg w)) [s]) (of_int 0) = true ->
       get (occnums (orbs w')) [s; l; n] =
         fmul (get (lbound (orbs w)) [s; l; n])
              (fermi_dirac (get (eigvals (orbs w)) [s; l; n])
                           (get m [s]) (beta (cfg w)))) /\
      (fneb (get (nele (cfg w)) [s]) (of_int 0) = false ->
       get (occnums (orbs w')) [s; l; n] = of_int 0).
Proof.
  intros Hns Hnele Hev Hlb Hchem Hm.
  destruct (@calc_occnums_run (set_mu m w) m ns nl nn)
    as (occ & Hrun & _ & _ & Hget); try assumption.
  unfold occupy. rewrite !bind_gets.
  erewrite bind_lift_ok by exact Hchem.
  rewrite bind_modify, bind_gets.
  erewrite bind_return by exact Hrun.
  rewrite bind_modify.
  eexists. split; [reflexivity |].
  repeat (split; [reflexivity |]).
  intros s l n Hs Hl Hn. simpl.
  rewrite (Hget s l n Hs Hl Hn). unfold occnum_entry. simpl.
  split; intros ->; reflexivity.
Qed.

Variable matrix_solve :
  Config F -> Orbitals F -> ndarray F -> ndarray F ->
  result (ndarray F * ndarray F).

Lemma in_range_2 idx a b :
  in_range idx [a; b] -> exists s i, idx = [s; i] /\ s < a /\ i < b.
Proof.
  intros Hin. inversion Hin as [| s ? idx1 ? Hs H1]; subst.
  inversion H1 as [| i ? idx2 ? Hi H2]; subst.
  inversion H2; subst. now exists s, i.
Qed.

(** The loop of [SCF_init] that fills the potential, row by row. *)
Lemma bare_potential_run (w : World F) (z : F) (x : ndarray F) ns ng :
  shape x = [ng] ->
  exists v,
    for_local (range ns)
      (fun v_en i => lift (setitem v_en i (scalar_mul (fneg z) (exp (neg x)))))
      (zeros [ns; ng]) w = Return v w /\
    shape v = [ns; ng] /\ wf v /\
    forall s i, s < ns -> i < ng ->
      get v [s; i] = fmul (fneg z) (fexp (fneg (get x [i]))).
Proof.
  intros Hx.
  set (Inv := fun (done : list nat) (v : ndarray F) =>
    shape v = [ns; ng] /\ wf v /\
    forall s i, s < ns -> i < ng -> In s done ->
      get v [s; i] = fmul (fneg z) (fexp (fneg (get x [i])))).
  match goal with
  | |- exists v, for_local _ ?body ?a w = _ /\ _ =>
      destruct (@for_local_invariant F _ Inv body (range ns) a w)
        as (v & Hrun & Hsh & Hwf & Hget)
  end.
  - split; [reflexivity |]. split; [apply wf_tabulate |].
    intros s i _ _ [].
  - intros pre i post v0 Hsplit (Hsh0 & Hwf0 & Hget0).
    apply range_split in Hsplit.
    destruct (setitem_spec v0 (scalar_mul (fneg z) (exp (neg x)))
                Hsh0 Hx Hsplit) as (v1 & Eset & Hsh1 & Hwf1 & Hget1).
    exists v1. split; [now apply lift_ok |].
    split; [assumption |]. split; [assumption |].
    intros s j Hs Hj Hin.
    rewrite Hget1 by (repeat constructor; assumption).
    destruct (Nat.eqb_spec s i) as [-> | Hsi].
    + assert (Hjx : in_range [j] (shape x))
        by (rewrite Hx; repeat constructor; assumption).
      unfold scalar_mul, exp, neg.
      rewrite !get_amap by exact Hjx. reflexivity.
    + apply Hget0; try assumption.
      apply in_app_or in Hin as [Hin | [-> | []]];
        [assumption | contradiction].
  - exists v. split; [exact Hrun |].
    split; [assumption |]. split; [assumption |].
    intros s i Hs Hi. apply Hget; try assumption. apply in_seq. lia.
Qed.

(** C7: [SCF_init] builds the potential [V[s,i] = -Z * exp(-x_i)], the
    same for every spin channel, hands it with the grid to the
    eigensolver, stores the eigenfunctions and eigenvalues the solver
    returns, recomputes [lbound] from the new eigenvalues and sets
    [config.mu] to the zero vector of length [spindims].  Here [v_en]
    is that potential: the array of shape [(spindims, ngrid)] with the
    entries stated. *)
Theorem SCF_init_bare_potential (w : World F) (atom : Atom F)
        (v_en ef ev : ndarray F) ns ng ms nl nn :
  spindims (cfg w) = ns ->
  ngrid (cfg w) = ng ->
  shape (xgrid (cfg w)) = [ng] ->
  shape v_en = [ns; ng] ->
  wf v_en ->
  (forall s i, s < ns -> i < ng ->
     get v_en [s; i] =
       fmul (fneg (at_chrg atom)) (fexp (fneg (get (xgrid (cfg w)) [i])))) ->
  matrix_solve (cfg w) (orbs w) v_en (xgrid (cfg w)) = Ok (ef, ev) ->
  lmax (cfg w) = nl ->
  shape ev = [ms; nl; nn] ->
  shape (lbound (orbs w)) = [ms; nl; nn] ->
  exists w',
    SCF_init matrix_solve atom w = Return tt w' /\
    eigfuncs (orbs w') = ef /\
    eigvals (orbs w') = ev /\
    (forall s l n, s < ms -> l < nl -> n < nn ->
       get (lbound (orbs w')) [s; l; n] =
         if fltb (get ev [s; l; n]) (of_int 0)
         then fadd (of_int (2 * Z.of_nat l)) (of_int 1) else of_int 0) /\
    mu (cfg w') = zeros [ns] /\
    occnums (orbs w') = occnums (orbs w) /\
    dens w' = dens w.
Proof.
  intros Hns Hng Hx Hshv Hwfv Hv Hsolve Hlmax Hev Hlb.
  destruct (@bare_potential_run w (at_chrg atom) (xgrid (cfg w)) ns ng Hx)
    as (v & Hloop & Hshv' & Hwfv' & Hv').
  assert (Evv : v = v_en).
  { apply ndarray_ext; try assumption; [congruence |].
    intros idx Hin. rewrite Hshv' in Hin.
    apply in_range_2 in Hin as (s & i & -> & Hs & Hi).
    now rewrite Hv, Hv'. }
  subst v.
  destruct (@make_lbound_run (set_eig ef ev w) ms nl nn)
    as (lb & Hmk & _ & Hget); try assumption.
  unfold SCF_init. rewrite bind_gets, Hns, Hng.
  erewrite bind_return by exact Hloop.
  rewrite bind_gets.
  erewrite bind_lift_ok by exact Hsolve.
  rewrite bind_modify. simpl fst. simpl snd.
  erewrite bind_return by exact Hmk.
  eexists. split; [reflexivity |].
  repeat (split; [reflexivity |]).
  split; [| repeat split; reflexivity].
  intros s l n Hs Hl Hn. simpl.
  now rewrite (Hget s l n Hs Hl Hn).
Qed.

End OrbitalsFacts.

(** * class Density: what the methods compute *)

Section DensityFacts.
Context {F : Type} `{Float F}.
Variable fd_int_complete : F -> F -> F -> F.


Lemma construct_rho_bound_run (w : World F) ns nl nn ng :
  shape (xgrid (cfg w)) = [ng] ->
  shape (eigfuncs (orbs w)) = [ns; nl; nn; ng] ->
  shape (occnums (orbs w)) = [ns; nl; nn] ->
  exists rb nb,
    construct_rho_bound w = Return tt (set_N_bound nb (set_rho_bound rb w)) /\
    shape rb = [ns; ng] /\ wf rb /\ shape nb = [ns] /\ wf nb /\
    (forall s i, s < ns -> i < ng ->
       get rb [s; i] = fsum2 nl nn (rho_bound_term (cfg w) (orbs w) s i)) /\
    (forall s, s < ns ->
       get nb [s] = fsum2 nl nn (fun l n => get (occnums (orbs w)) [s; l; n])).
Proof.
  intros Hx Hef Hocc.
  destruct (@binop_spec F _ F F _ _ fmul
              (exp (div_scalar (neg (xgrid (cfg w))) (of_int 2)))
              (eigfuncs (orbs w)) [ns; nl; nn])
    as (orbs_R & Emul & HshR & _ & HR).
  { simpl. now rewrite Hef, Hx. }
  rewrite Hef in HshR.
  destruct (@einsum_spec F _ (occnums (orbs w))
              (pow_scalar orbs_R (of_int 2)) ns nl nn ng Hocc HshR)
    as (rb & Eein & Hshrb & Hwfrb & Hrb).
  destruct (sum_axis12_spec (occnums (orbs w)) Hocc)
    as (nb & Esum & Hshnb & Hwfnb & Hnb).
  exists rb, nb. split.
  { unfold construct_rho_bound. rewrite !bind_gets.
    unfold mul. erewrite bind_lift_ok by exact Emul.
    erewrite bind_lift_ok by exact Eein.
    rewrite bind_modify, bind_gets.
    erewrite bind_lift_ok by exact Esum. reflexivity. }
  repeat (split; [assumption |]). split; [| assumption].
  intros s i Hs Hi. rewrite Hrb by assumption.
  apply fsum2_ext. intros l n Hl Hn. unfold rho_bound_term. f_equal.
  assert (Hidx : in_range [s; l; n; i] (shape orbs_R))
    by (rewrite HshR; repeat constructor; assumption).
  unfold pow_scalar. rewrite get_amap by exact Hidx. f_equal.
  assert (Hi1 : in_range [i] (shape (xgrid (cfg w))))
    by (rewrite Hx; repeat constructor; assumption).
  pose proof (HR [s; l; n] [i]) as HRi. simpl app in HRi.
  rewrite HRi.
  - unfold exp, div_scalar, neg. rewrite !get_amap by exact Hi1. reflexivity.
  - exact Hi1.
  - simpl. rewrite Hef. repeat constructor; assumption.
Qed.

(** C4: after [construct_rho_bound], [rho_bound[s,i]] is the sum over
    all [(l, n)] of [occnums[s,l,n] * (exp(-x_i/2) * P[s,l,n,i])^2] for
    the stored eigenfunctions [P] and the grid [x], and [N_bound[s]] is
    the sum over all [(l, n)] of [occnums[s,l,n]], which does not
    involve the grid. *)
Theorem construct_rho_bound_sums (w : World F) ns nl nn ng :
  shape (xgrid (cfg w)) = [ng] ->
  shape (eigfuncs (orbs w)) = [ns; nl; nn; ng] ->
  shape (occnums (orbs w)) = [ns; nl; nn] ->
  exists w',
    construct_rho_bound w = Return tt w' /\
    (forall s i, s < ns -> i < ng ->
       get (rho_bound (dens w')) [s; i] =
         fsum2 nl nn (fun l n =>
           fmul (get (occnums (orbs w)) [s; l; n])
                (fpow (fmul (fexp (fdiv (fneg (get (xgrid (cfg w)) [i]))
                                        (of_int 2)))
                            (get (eigfuncs (orbs w)) [s; l; n; i]))
                      (of_int 2)))) /\
    (forall s, s < ns ->
       get (N_bound (dens w')) [s] =
         fsum2 nl nn (fun l n => get (occnums (orbs w)) [s; l; n])).
Proof.
  intros Hx Hef Hocc.
  destruct (construct_rho_bound_run w Hx Hef Hocc)
    as (rb & nb & Hrun & _ & _ & _ & _ & Hrb & Hnb).
  eexists. split; [exact Hrun |]. split.
  - intros s i Hs Hi. simpl. now rewrite Hrb.
  - intros s Hs. simpl. now apply Hnb.
Qed.

(** *** The unbound density *)

Lemma construct_rho_unbound_unfold (w : World F) :
  construct_rho_unbound fd_int_complete w =
    if String.eqb (unbound (cfg w)) "ideal"
    then for_ (range (spindims (cfg w))) (unbound_step fd_int_complete) w
    else Return tt w.
Proof.
  unfold construct_rho_unbound. rewrite bind_gets.
  now destruct (String.eqb (unbound (cfg w)) "ideal").
Qed.


Lemma unbound_step_inv i (w0 w1 : World F) :
  unbound_step fd_int_complete i w0 = Return tt w1 ->
  item (nele (cfg w0)) i = Ok (get (nele (cfg w0)) [i]) /\
  item (mu (cfg w0)) i = Ok (get (mu (cfg w0)) [i]) /\
  exists ru nu,
    setitem (rho_unbound (dens w0)) i
      (scalar (n_unbound fd_int_complete (cfg w0) i))
      = Ok ru /\
    setitem (N_unbound (dens w0)) i
      (scalar (fmul (n_unbound fd_int_complete (cfg w0) i)
                    (sph_vol (cfg w0)))) = Ok nu /\
    w1 = set_N_unbound nu (set_rho_unbound ru w0).
Proof.
  unfold unbound_step. rewrite bind_gets. intros E.
  apply bind_return_inv in E as (n_i & wa & En & E).
  apply lift_return_inv in En as [En ->].
  apply bind_return_inv in E as (mu_i & wa & Em & E).
  apply lift_return_inv in Em as [Em ->].
  rewrite bind_gets in E.
  apply bind_return_inv in E as (ru & wa & Eru & E).
  apply lift_return_inv in Eru as [Eru ->].
  rewrite bind_modify, bind_gets in E.
  apply bind_return_inv in E as (nu & wa & Enu & E).
  apply lift_return_inv in Enu as [Enu ->].
  unfold modify in E. injection E as <-.
  destruct (item_inv _ _ En) as (dn & _ & _ & ->).
  destruct (item_inv _ _ Em) as (dm & _ & _ & ->).
  repeat (split; [assumption |]).
  exists ru, nu. repeat split; assumption.
Qed.

Lemma unbound_step_fix i (w : World F) :
  row_done fd_int_complete (cfg w) i (dens w) ->
  unbound_step fd_int_complete i w = Return tt w.
Proof.
  intros (En & Em & Hru & Hnu).
  apply setitem_scalar_fix in Hru, Hnu.
  unfold unbound_step. rewrite bind_gets.
  erewrite bind_lift_ok by exact En.
  erewrite bind_lift_ok by exact Em.
  rewrite bind_gets.
  erewrite bind_lift_ok by exact Hru.
  rewrite bind_modify, bind_gets.
  erewrite bind_lift_ok by exact Hnu.
  unfold modify. f_equal. now destruct w as [c o []].
Qed.

(** What a completed run of the loop leaves behind. *)
Lemma unbound_loop_inv l (w w' : World F) :
  for_ l (unbound_step fd_int_complete) w = Return tt w' ->
  cfg w' = cfg w /\ orbs w' = orbs w /\
  rho_bound (dens w') = rho_bound (dens w) /\
  N_bound (dens w') = N_bound (dens w) /\
  forall i, In i l -> row_done fd_int_complete (cfg w) i (dens w').
Proof.
  apply (@for_return_inv F (fun done w0 =>
    cfg w0 = cfg w /\ orbs w0 = orbs w /\
    rho_bound (dens w0) = rho_bound (dens w) /\
    N_bound (dens w0) = N_bound (dens w) /\
    forall i, In i done -> row_done fd_int_complete (cfg w) i (dens w0))).
  - repeat (split; [reflexivity |]). intros i [].
  - intros pre i post w0 w1 _ (Hc & Ho & Hrb & Hnb & Hrows) Hstep.
    apply unbound_step_inv in Hstep
      as (En & Em & ru & nu & Eru & Enu & ->).
    rewrite Hc in En, Em, Eru, Enu. simpl.
    repeat (split; [assumption |]).
    intros k Hk. destruct (Nat.eq_dec k i) as [-> | Hne].
    + repeat (split; [assumption |]). split.
      * eapply row_const_set_same; exact Eru.
      * eapply row_const_set_same; exact Enu.
    + apply in_app_or in Hk as [Hk | [-> | []]]; [| contradiction].
      destruct (Hrows k Hk) as (Hkn & Hkm & Hkru & Hknu).
      repeat (split; [assumption |]). split.
      * eapply row_const_set_other; [exact Eru | exact Hkru | exact Hne].
      * eapply row_const_set_other; [exact Enu | exact Hknu | exact Hne].
Qed.

(** Running the loop again on what it left behind changes nothing. *)
Lemma unbound_loop_again l (w w' : World F) :
  for_ l (unbound_step fd_int_complete) w = Return tt w' ->
  for_ l (unbound_step fd_int_complete) w' = Return tt w'.
Proof.
  intros Hrun. apply unbound_loop_inv in Hrun as (Hc & _ & _ & _ & Hrows).
  destruct (@for_invariant F (fun _ w0 => w0 = w')
              (unbound_step fd_int_complete) l w')
    as (w'' & Hrun' & ->); [reflexivity | | assumption].
  intros pre i post w0 Hl ->. exists w'. split; [| reflexivity].
  apply unbound_step_fix. rewrite Hc. apply Hrows.
  rewrite Hl. apply in_or_app. right. now left.
Qed.

(** On arrays of the configured shapes the loop completes. *)
Lemma unbound_loop_returns (w : World F) ns ng :
  spindims (cfg w) = ns ->
  shape (nele (cfg w)) = [ns] ->
  shape (mu (cfg w)) = [ns] ->
  shape (rho_unbound (dens w)) = [ns; ng] ->
  shape (N_unbound (dens w)) = [ns] ->
  exists w',
    for_ (range ns) (unbound_step fd_int_complete) w = Return tt w' /\
    shape (rho_unbound (dens w')) = [ns; ng] /\
    shape (N_unbound (dens w')) = [ns].
Proof.
  intros Hns Hnele Hmu Hru Hnu.
  destruct (@for_invariant F (fun _ w0 =>
      cfg w0 = cfg w /\
      shape (rho_unbound (dens w0)) = [ns; ng] /\
      shape (N_unbound (dens w0)) = [ns])
      (unbound_step fd_int_complete) (range ns) w)
    as (w' & Hrun & _ & Hru' & Hnu'); [now repeat split | | now exists w'].
  intros pre i post w0 Hsplit (Hc & Hru0 & Hnu0).
  apply range_split in Hsplit.
  destruct (setitem_scalar_spec (rho_unbound (dens w0))
              (n_unbound fd_int_complete (cfg w0) i) Hru0 Hsplit)
    as (ru & Eru & Hshru & _ & _).
  destruct (setitem_scalar_spec (N_unbound (dens w0))
              (fmul (n_unbound fd_int_complete (cfg w0) i)
                    (sph_vol (cfg w0))) Hnu0 Hsplit)
    as (nu & Enu & Hshnu & _ & _).
  exists (set_N_unbound nu (set_rho_unbound ru w0)).
  split; [| now repeat split].
  rewrite <- Hc in Hnele, Hmu.
  unfold unbound_step. rewrite bind_gets.
  erewrite bind_lift_ok by exact (item_spec _ Hnele Hsplit).
  erewrite bind_lift_ok by exact (item_spec _ Hmu Hsplit).
  rewrite bind_gets.
  erewrite bind_lift_ok by exact Eru.
  rewrite bind_modify, bind_gets.
  erewrite bind_lift_ok by exact Enu.
  reflexivity.
Qed.

(** X21: under the "ideal" treatment, [construct_rho_unbound] sets
    [rho_unbound[s,i]], for every grid point [i], to the one number
    [nele[s] / (sqrt(2) * pi^2) * fd_int_complete(mu[s], beta, 1/2)] and
    [N_unbound[s]] to that number times [sph_vol], for every spin
    channel, with or without electrons.  For a spin channel whose
    electron count is zero both are zero in every arithmetic in which
    zero divided by, and zero times, any number is zero. *)
Theorem construct_rho_unbound_ideal (w : World F) ns ng :
  unbound (cfg w) = "ideal"%string ->
  spindims (cfg w) = ns ->
  shape (nele (cfg w)) = [ns] ->
  shape (mu (cfg w)) = [ns] ->
  shape (rho_unbound (dens w)) = [ns; ng] ->
  shape (N_unbound (dens w)) = [ns] ->
  exists w',
    construct_rho_unbound fd_int_complete w = Return tt w' /\
    forall s, s < ns ->
      let n_ub :=
        fmul (fdiv (get (nele (cfg w)) [s])
                   (fmul (fsqrt (of_int 2)) (fpow fpi (of_int 2))))
             (fd_int_complete (get (mu (cfg w)) [s]) (beta (cfg w)) fhalf) in
      (forall i, i < ng -> get (rho_unbound (dens w')) [s; i] = n_ub) /\
      get (N_unbound (dens w')) [s] = fmul n_ub (sph_vol (cfg w)) /\
      (get (nele (cfg w)) [s] = of_int 0 ->
       (forall x : F, fdiv (of_int 0) x = of_int 0) ->
       (forall x : F, fmul (of_int 0) x = of_int 0) ->
       (forall i, i < ng -> get (rho_unbound (dens w')) [s; i] = of_int 0) /\
       get (N_unbound (dens w')) [s] = of_int 0).
Proof.
  intros Hideal Hns Hnele Hmu Hru Hnu.
  destruct (unbound_loop_returns w Hns Hnele Hmu Hru Hnu)
    as (w' & Hrun & Hru' & Hnu').
  exists w'. split.
  { rewrite construct_rho_unbound_unfold, Hideal, Hns. exact Hrun. }
  apply unbound_loop_inv in Hrun as (_ & _ & _ & _ & Hrows).
  intros s Hs n_ub.
  destruct (Hrows s) as (_ & _ & Hrow_ru & Hrow_nu); [apply in_seq; lia |].
  destruct Hrow_ru as (d & sh & Hsh & _ & _ & Hget_ru).
  destruct Hrow_nu as (d' & sh' & Hsh' & _ & _ & Hget_nu).
  rewrite Hru' in Hsh. injection Hsh as <- <-.
  rewrite Hnu' in Hsh'. injection Hsh' as <- <-.
  assert (Hrho : forall i, i < ng -> get (rho_unbound (dens w')) [s; i] = n_ub).
  { intros i Hi. apply Hget_ru. repeat constructor; assumption. }
  assert (HN : get (N_unbound (dens w')) [s] = fmul n_ub (sph_vol (cfg w))).
  { apply Hget_nu. constructor. }
  split; [exact Hrho |]. split; [exact HN |].
  intros Hzero Hdiv Hmul.
  assert (Hn0 : n_ub = of_int 0).
  { unfold n_ub. now rewrite Hzero, Hdiv, Hmul. }
  split.
  - intros i Hi. now rewrite Hrho.
  - now rewrite HN, Hn0, Hmul.
Qed.

(** *** The whole of [construct] *)

Lemma construct_rho_bound_inv (w wa : World F) :
  construct_rho_bound w = Return tt wa ->
  exists rb nb,
    wa = set_N_bound nb (set_rho_bound rb w) /\
    forall w2, cfg w2 = cfg w -> orbs w2 = orbs w ->
      construct_rho_bound w2 = Return tt (set_N_bound nb (set_rho_bound rb w2)).
Proof.
  unfold construct_rho_bound. rewrite !bind_gets. intros E.
  apply bind_return_inv in E as (orbs_R & w0 & Emul & E).
  apply lift_return_inv in Emul as [Emul ->].
  apply bind_return_inv in E as (rb & w0 & Eein & E).
  apply lift_return_inv in Eein as [Eein ->].
  rewrite bind_modify, bind_gets in E. simpl orbs in E.
  apply bind_return_inv in E as (nb & w0 & Esum & E).
  apply lift_return_inv in Esum as [Esum ->].
  unfold modify in E. injection E as <-.
  exists rb, nb. split; [reflexivity |].
  intros w2 Hc Ho. rewrite !bind_gets, Hc, Ho.
  erewrite bind_lift_ok by exact Emul.
  erewrite bind_lift_ok by exact Eein.
  rewrite bind_modify, bind_gets. simpl orbs. rewrite Ho.
  erewrite bind_lift_ok by exact Esum. reflexivity.
Qed.

(** C8: when [construct] has completed, calling it again on the store
    it left behind (same orbitals, same configuration) completes and
    leaves that store as it is: [rho_bound], [rho_unbound], [N_bound]
    and [N_unbound] are the very same arrays. *)
Theorem construct_twice (w w1 : World F) :
  construct fd_int_complete w = Return tt w1 ->
  construct fd_int_complete w1 = Return tt w1.
Proof.
  unfold construct. intros E.
  apply bind_return_inv in E as ([] & wa & Ebound & Eunbound).
  apply construct_rho_bound_inv in Ebound as (rb & nb & -> & Hagain).
  rewrite construct_rho_unbound_unfold in Eunbound. simpl cfg in Eunbound.
  destruct (String.eqb (unbound (cfg w)) "ideal") eqn:Hideal.
  - pose proof (unbound_loop_again _ _ Eunbound) as Hloop.
    apply unbound_loop_inv in Eunbound as (Hc & Ho & Hrb & Hnb & _).
    simpl in Hc, Ho, Hrb, Hnb.
    erewrite bind_return by (apply Hagain; assumption).
    assert (Eeta : set_N_bound nb (set_rho_bound rb w1) = w1).
    { destruct w1 as [c o [a b c' d]]. simpl in *. now subst. }
    rewrite Eeta, construct_rho_unbound_unfold, Hc, Hideal.
    exact Hloop.
  - injection Eunbound as <-.
    erewrite bind_return by (apply Hagain; reflexivity).
    rewrite construct_rho_unbound_unfold. simpl cfg. now rewrite Hideal.
Qed.

Ltac preserves_tac :=
  repeat match goal with
         | |- preserves _ (if ?b then _ else _) => destruct b
         | |- preserves _ (bind _ _) => simple apply preserves_bind
         | |- preserves _ (gets _) => simple apply preserves_gets
         | |- preserves _ (lift _) => simple apply preserves_lift
         | |- preserves _ (ret _) => simple apply preserves_ret
         | |- preserves _ (for_ _ _) => simple apply preserves_for
         | |- preserves _ (modify _) => simple apply preserves_modify; auto
         | |- forall _, _ => intro
         end.

Lemma construct_rho_bound_preserves (P : World F -> Prop) :
  (forall a w, P w -> P (set_rho_bound a w)) ->
  (forall a w, P w -> P (set_N_bound a w)) ->
  preserves P construct_rho_bound.
Proof. intros H1 H2. unfold construct_rho_bound. preserves_tac. Qed.

Lemma construct_rho_unbound_preserves (P : World F -> Prop) :
  (forall a w, P w -> P (set_rho_unbound a w)) ->
  (forall a w, P w -> P (set_N_unbound a w)) ->
  preserves P (construct_rho_unbound fd_int_complete).
Proof. intros H3 H4. unfold construct_rho_unbound. preserves_tac. Qed.

Lemma construct_preserves (P : World F -> Prop) :
  (forall a w, P w -> P (set_rho_bound a w)) ->
  (forall a w, P w -> P (set_N_bound a w)) ->
  (forall a w, P w -> P (set_rho_unbound a w)) ->
  (forall a w, P w -> P (set_N_unbound a w)) ->
  preserves P (construct fd_int_complete).
Proof.
  intros H1 H2 H3 H4. unfold construct. apply preserves_bind.
  - now apply construct_rho_bound_preserves.
  - intros _. now apply construct_rho_unbound_preserves.
Qed.

(** C9: [construct] never changes its [Orbitals] argument, whether it
    completes or raises: [eigfuncs], [eigvals], [occnums] and [lbound]
    are afterwards what they were before. *)
Theorem construct_keeps_orbitals (w : World F) :
  eigfuncs (orbs (final (construct fd_int_complete w))) = eigfuncs (orbs w) /\
  eigvals (orbs (final (construct fd_int_complete w))) = eigvals (orbs w) /\
  occnums (orbs (final (construct fd_int_complete w))) = occnums (orbs w) /\
  lbound (orbs (final (construct fd_int_complete w))) = lbound (orbs w).
Proof.
  assert (Ho : orbs (final (construct fd_int_complete w)) = orbs w).
  { apply (@construct_preserves (fun w0 => orbs w0 = orbs w));
      try (intros a w0 Hw0; exact Hw0). reflexivity. }
  now rewrite Ho.
Qed.

(** With any treatment other than "ideal", [construct] is
    [construct_rho_bound]: the unbound part does nothing. *)
Lemma construct_not_ideal (w : World F) :
  unbound (cfg w) <> "ideal"%string ->
  construct fd_int_complete w = construct_rho_bound w.
Proof.
  intros Hne. apply String.eqb_neq in Hne.
  assert (Hc : cfg (final (construct_rho_bound w)) = cfg w).
  { apply (@construct_rho_bound_preserves (fun w0 => cfg w0 = cfg w));
      try (intros a w0 Hw0; exact Hw0). reflexivity. }
  unfold construct, bind.
  destruct (construct_rho_bound w) as [[] wa | e wa]; [| reflexivity].
  simpl in Hc. rewrite construct_rho_unbound_unfold, Hc, Hne. reflexivity.
Qed.

(** C10: with any treatment other than "ideal", [construct] on arrays
    of matching shapes completes without raising, and [rho_unbound] and
    [N_unbound] are afterwards the arrays they were before. *)
Theorem construct_not_ideal_keeps_unbound (w : World F) ns nl nn ng :
  unbound (cfg w) <> "ideal"%string ->
  shape (xgrid (cfg w)) = [ng] ->
  shape (eigfuncs (orbs w)) = [ns; nl; nn; ng] ->
  shape (occnums (orbs w)) = [ns; nl; nn] ->
  exists w',
    construct fd_int_complete w = Return tt w' /\
    rho_unbound (dens w') = rho_unbound (dens w) /\
    N_unbound (dens w') = N_unbound (dens w).
Proof.
  intros Hne Hx Hef Hocc.
  destruct (construct_rho_bound_run w Hx Hef Hocc) as (rb & nb & Hrun & _).
  exists (set_N_bound nb (set_rho_bound rb w)).
  split; [| split; reflexivity].
  now rewrite construct_not_ideal.
Qed.

(** C1, as the code has it: with any treatment other than "ideal",
    [construct] raises no error.  On arrays of matching shapes it
    completes; it replaces [rho_bound] and [N_bound] by the newly
    computed sums and leaves [rho_unbound] and [N_unbound] as they
    were. *)
Theorem construct_not_ideal_no_error (w : World F) ns nl nn ng :
  unbound (cfg w) <> "ideal"%string ->
  shape (xgrid (cfg w)) = [ng] ->
  shape (eigfuncs (orbs w)) = [ns; nl; nn; ng] ->
  shape (occnums (orbs w)) = [ns; nl; nn] ->
  ~ raises (construct fd_int_complete) w /\
  exists rb nb,
    dens (final (construct fd_int_complete w)) =
      {| rho_bound := rb; rho_unbound := rho_unbound (dens w);
         N_bound := nb; N_unbound := N_unbound (dens w) |} /\
    (forall s i, s < ns -> i < ng ->
       get rb [s; i] = fsum2 nl nn (rho_bound_term (cfg w) (orbs w) s i)) /\
    (forall s, s < ns ->
       get nb [s] = fsum2 nl nn (fun l n => get (occnums (orbs w)) [s; l; n])).
Proof.
  intros Hne Hx Hef Hocc.
  destruct (construct_rho_bound_run w Hx Hef Hocc)
    as (rb & nb & Hrun & _ & _ & _ & _ & Hrb & Hnb).
  rewrite <- construct_not_ideal in Hrun by assumption.
  split.
  - intros (e & w' & Hraise). rewrite Hrun in Hraise. discriminate.
  - exists rb, nb. rewrite Hrun. now repeat split.
Qed.

(** On arrays of the configured shapes [construct] completes, whatever
    the treatment of the unbound electrons. *)
Lemma construct_returns (w : World F) ns nl nn ng ng' :
  shape (xgrid (cfg w)) = [ng] ->
  shape (eigfuncs (orbs w)) = [ns; nl; nn; ng] ->
  shape (occnums (orbs w)) = [ns; nl; nn] ->
  spindims (cfg w) = ns ->
  shape (nele (cfg w)) = [ns] ->
  shape (mu (cfg w)) = [ns] ->
  shape (rho_unbound (dens w)) = [ns; ng'] ->
  shape (N_unbound (dens w)) = [ns] ->
  exists w', construct fd_int_complete w = Return tt w'.
Proof.
  intros Hx Hef Hocc Hns Hnele Hmu Hru Hnu.
  destruct (construct_rho_bound_run w Hx Hef Hocc) as (rb & nb & Hrun & _).
  unfold construct. erewrite bind_return by exact Hrun.
  rewrite construct_rho_unbound_unfold. simpl cfg.
  destruct (String.eqb (unbound (cfg w)) "ideal"); [| now eexists].
  destruct (@unbound_loop_returns (set_N_bound nb (set_rho_bound rb w)) ns ng')
    as (w' & Hloop & _); try assumption.
  exists w'. now rewrite Hns.
Qed.

End DensityFacts.

(** * The order of the calls *)

Section CallOrder.
Context {F : Type} `{Float F}.
Variable chem_pot : Config F -> Orbitals F -> result (ndarray F).
Variable fermi_dirac : F -> F -> F -> F.
Variable fd_int_complete : F -> F -> F -> F.

(** C2, as the code has it: neither [occupy] nor [construct] checks
    that its prerequisite has been produced.  On objects fresh from
    their constructors (no eigenvalues, no occupation numbers yet)
    [construct] completes without raising; [occupy] completes and
    returns [True] whenever the chemical-potential routine returns one
    value per spin channel, and when that routine raises, [occupy]
    raises the same exception and leaves the store as it was. *)
Theorem no_prerequisite_check (w : World F) :
  orbs w = Orbitals_init (cfg w) ->
  dens w = Density_init (cfg w) ->
  shape (xgrid (cfg w)) = [ngrid (cfg w)] ->
  shape (nele (cfg w)) = [spindims (cfg w)] ->
  shape (mu (cfg w)) = [spindims (cfg w)] ->
  (exists w', construct fd_int_complete w = Return tt w') /\
  (forall m, chem_pot (cfg w) (orbs w) = Ok m ->
     shape m = [spindims (cfg w)] ->
     exists w', occupy chem_pot fermi_dirac w = Return true w') /\
  (forall e, chem_pot (cfg w) (orbs w) = Err e ->
     occupy chem_pot fermi_dirac w = Raise e w).
Proof.
  intros Ho Hd Hx Hnele Hmu. split; [| split].
  - apply (@construct_returns F _ fd_int_complete w (spindims (cfg w))
             (lmax (cfg w)) (nmax (cfg w)) (ngrid (cfg w)) (ngrid (cfg w)));
      try assumption; try reflexivity; rewrite ?Ho, ?Hd; reflexivity.
  - intros m Hchem Hm.
    destruct (@calc_occnums_run F _ fermi_dirac (set_mu m w) m
                (spindims (cfg w)) (lmax (cfg w)) (nmax (cfg w)))
      as (occ & Hrun & _); try assumption; try reflexivity;
      try (simpl; rewrite Ho; reflexivity).
    unfold occupy. rewrite !bind_gets.
    erewrite bind_lift_ok by exact Hchem.
    rewrite bind_modify, bind_gets.
    erewrite bind_return by exact Hrun.
    rewrite bind_modify. now eexists.
  - intros e Hchem. unfold occupy. rewrite !bind_gets.
    now erewrite bind_lift_err by exact Hchem.
Qed.

End CallOrder.

(** * Concrete runs over the real numbers *)

Section Runs.
Import Examples.
Open Scope R_scope.

Lemma R_ltb_true x y : x < y -> R_ltb x y = true.
Proof.
  intros Hxy. unfold R_ltb.
  destruct (Rlt_dec x y); [reflexivity | lra].
Qed.

Lemma R_ltb_false x y : y <= x -> R_ltb x y = false.
Proof.
  intros Hxy. unfold R_ltb.
  destruct (Rlt_dec x y); [lra | reflexivity].
Qed.

Lemma R_neb_true x y : x <> y -> R_neb x y = true.
Proof.
  intros Hxy. unfold R_neb.
  destruct (Req_dec_T x y); [contradiction | reflexivity].
Qed.

(** [make_lbound] on the eigenvalues [-1] and [0] for [l = 0]: the mask
    is [2 * 0 + 1] for the first and [0] for the second. *)
Lemma make_lbound_mask_witness :
  exists w',
    make_lbound (solved "ideal" 1) = Return tt w' /\
    get (lbound (orbs w')) [0; 0; 0]%nat = 1 /\
    get (lbound (orbs w')) [0; 0; 1]%nat = 0.
Proof.
  destruct (@make_lbound_mask R _ (solved "ideal" 1) 1 1 2
              eq_refl eq_refl eq_refl)
    as (w' & Hrun & _ & _ & _ & _ & _ & Hget).
  exists w'. split; [exact Hrun |].
  destruct (Hget 0%nat 0%nat 0%nat) as [Hneg _]; [lia | lia | lia |].
  destruct (Hget 0%nat 0%nat 1%nat) as [_ Hpos]; [lia | lia | lia |].
  split.
  - rewrite Hneg; [simpl; lra |].
    apply R_ltb_true. unfold get. simpl. lra.
  - rewrite Hpos; [reflexivity |].
    apply R_ltb_false. unfold get. simpl. lra.
Defined.

(** [occupy] with one electron and the potentials the root finder
    returns: the second state has [lbound = 0], so its occupation
    number is [0 * fermi_dirac(...)]. *)
Lemma occupy_occnums_witness :
  exists w',
    occupy chem_pot_R fermi_dirac_R (solved "ideal" 1) = Return true w' /\
    mu (cfg w') = zeros [1%nat] /\
    get (occnums (orbs w')) [0; 0; 1]%nat = 0.
Proof.
  destruct (@occupy_occnums R _ chem_pot_R fermi_dirac_R (solved "ideal" 1)
              (zeros [1%nat]) 1 1 2
              eq_refl eq_refl eq_refl eq_refl eq_refl eq_refl)
    as (w' & Hrun & Hmu & _ & _ & Hget).
  exists w'. split; [exact Hrun |]. split; [exact Hmu |].
  destruct (Hget 0%nat 0%nat 1%nat) as [Hocc _]; [lia | lia | lia |].
  rewrite Hocc.
  - unfold get. simpl. lra.
  - apply R_neb_true. unfold get. simpl. lra.
Defined.

Lemma v_en1_entries s i :
  (s < 1)%nat -> (i < 2)%nat ->
  get v_en1 [s; i] =
    fmul (fneg 1) (fexp (fneg (get (xgrid (config1 "ideal" 1)) [i]))).
Proof.
  intros Hs Hi.
  destruct s as [| s]; [| lia].
  destruct i as [| [| i]]; [reflexivity | reflexivity | lia].
Qed.

(** [SCF_init] for nuclear charge 1 on fresh objects. *)
Lemma SCF_init_bare_potential_witness :
  exists w',
    SCF_init matrix_solve_R {| at_chrg := 1 |} (fresh "ideal" 1)
      = Return tt w' /\
    eigfuncs (orbs w') = eigfuncs1 /\
    eigvals (orbs w') = eigvals1 /\
    mu (cfg w') = zeros [1%nat].
Proof.
  destruct (@SCF_init_bare_potential R _ matrix_solve_R (fresh "ideal" 1)
              {| at_chrg := 1 |} v_en1 eigfuncs1 eigvals1 1 2 1 1 2
              eq_refl eq_refl eq_refl eq_refl eq_refl v_en1_entries
              eq_refl eq_refl eq_refl eq_refl)
    as (w' & Hrun & Hef & Hev & _ & Hmu & _).
  exists w'. repeat split; assumption.
Defined.

(** [construct_rho_bound] with one electron in the lower state. *)
Lemma construct_rho_bound_sums_witness :
  exists w',
    construct_rho_bound (occupied "ideal" 1) = Return tt w' /\
    get (N_bound (dens w')) [0%nat] = 1.
Proof.
  destruct (@construct_rho_bound_sums R _ (occupied "ideal" 1) 1 1 2 2
              eq_refl eq_refl eq_refl)
    as (w' & Hrun & _ & HN).
  exists w'. split; [exact Hrun |].
  rewrite HN by lia. unfold fsum2, get. simpl. lra.
Defined.

Lemma R_zero_div (x : R) : fdiv (of_int 0) x = of_int 0.
Proof. simpl. unfold Rdiv. apply Rmult_0_l. Qed.

Lemma R_zero_mul (x : R) : fmul (of_int 0) x = of_int 0.
Proof. simpl. apply Rmult_0_l. Qed.

(** [construct_rho_unbound] for a spin channel without electrons. *)
Lemma construct_rho_unbound_ideal_witness :
  exists w',
    construct_rho_unbound fd_int_complete_R (occupied "ideal" 0)
      = Return tt w' /\
    get (rho_unbound (dens w')) [0; 1]%nat = 0 /\
    get (N_unbound (dens w')) [0%nat] = 0.
Proof.
  destruct (@construct_rho_unbound_ideal R _ fd_int_complete_R
              (occupied "ideal" 0) 1 2
              eq_refl eq_refl eq_refl eq_refl eq_refl eq_refl)
    as (w' & Hrun & Hspec).
  exists w'. split; [exact Hrun |].
  destruct (Hspec 0%nat) as (_ & _ & Hzero); [lia |].
  destruct (Hzero eq_refl R_zero_div R_zero_mul) as [Hrho HN].
  split; [apply Hrho; lia | exact HN].
Defined.

Lemma construct_occupied_returns treatment n :
  exists w',
    construct fd_int_complete_R (occupied treatment n) = Return tt w'.
Proof.
  apply (@construct_returns R _ fd_int_complete_R (occupied treatment n)
           1 1 2 2 2); reflexivity.
Qed.

(** [construct] twice with the "ideal" treatment. *)
Lemma construct_twice_witness :
  exists w1,
    construct fd_int_complete_R (occupied "ideal" 1) = Return tt w1 /\
    construct fd_int_complete_R w1 = Return tt w1.
Proof.
  destruct (construct_occupied_returns "ideal" 1) as (w1 & Hrun).
  exists w1. split; [exact Hrun |].
  exact (@construct_twice R _ fd_int_complete_R _ _ Hrun).
Defined.

Lemma quantum_not_ideal n :
  unbound (cfg (occupied "quantum" n)) <> "ideal"%string.
Proof. discriminate. Qed.

(** [construct] with the treatment "quantum", which is not "ideal". *)
Lemma construct_not_ideal_keeps_unbound_witness :
  exists w',
    construct fd_int_complete_R (occupied "quantum" 1) = Return tt w' /\
    rho_unbound (dens w') = rho_unbound (dens (occupied "quantum" 1)) /\
    N_unbound (dens w') = N_unbound (dens (occupied "quantum" 1)).
Proof.
  exact (@construct_not_ideal_keeps_unbound R _ fd_int_complete_R
           (occupied "quantum" 1) 1 1 2 2
           (@quantum_not_ideal 1) eq_refl eq_refl eq_refl).
Defined.

Lemma construct_not_ideal_no_error_witness :
  exists rb nb,
    dens (final (construct fd_int_complete_R (occupied "quantum" 1))) =
      {| rho_bound := rb;
         rho_unbound := rho_unbound (dens (occupied "quantum" 1));
         N_bound := nb;
         N_unbound := N_unbound (dens (occupied "quantum" 1)) |} /\
    get nb [0%nat] = 1.
Proof.
  destruct (@construct_not_ideal_no_error R _ fd_int_complete_R
              (occupied "quantum" 1) 1 1 2 2
              (@quantum_not_ideal 1) eq_refl eq_refl eq_refl)
    as (_ & rb & nb & Hdens & _ & HN).
  exists rb, nb. split; [exact Hdens |].
  rewrite HN by lia. unfold fsum2, get. simpl. lra.
Defined.

(** C1 fails on the code: with the unsupported treatment "quantum",
    [construct] raises nothing; it completes and has replaced
    [N_bound], so the density is not left unmodified. *)
Lemma construct_unsupported_counterexample :
  exists w',
    construct fd_int_complete_R (occupied "quantum" 1) = Return tt w' /\
    N_bound (dens w') <> N_bound (dens (occupied "quantum" 1)).
Proof.
  destruct (@construct_rho_bound_run R _ (occupied "quantum" 1) 1 1 2 2
              eq_refl eq_refl eq_refl)
    as (rb & nb & Hrun & _ & _ & _ & _ & _ & HN).
  exists (set_N_bound nb (set_rho_bound rb (occupied "quantum" 1))). split.
  - rewrite construct_not_ideal by apply (@quantum_not_ideal 1). exact Hrun.
  - simpl. intros E.
    assert (E0 : get nb [0%nat] = get (zeros (F := R) [1%nat]) [0%nat])
      by now rewrite E.
    rewrite HN in E0 by lia. unfold fsum2, get in E0. simpl in E0. lra.
Qed.

(** C2 fails on the code: after [SCF_init] and without [occupy], so
    that [occnums] is still the zero array of the constructor,
    [construct] raises nothing and completes. *)
Lemma construct_before_occupy_counterexample :
  occnums (orbs (solved "ideal" 1)) =
    occnums (Orbitals_init (cfg (solved "ideal" 1))) /\
  exists w', construct fd_int_complete_R (solved "ideal" 1) = Return tt w'.
Proof.
  split; [reflexivity |].
  apply (@construct_returns R _ fd_int_complete_R (solved "ideal" 1)
           1 1 2 2 2); reflexivity.
Qed.

(** Fresh objects: [construct] completes, and so does [occupy] when the
    root finder answers. *)
Lemma no_prerequisite_check_witness :
  (exists w', construct fd_int_complete_R (fresh "ideal" 1) = Return tt w') /\
  (exists w',
     occupy chem_pot_R fermi_dirac_R (fresh "ideal" 1) = Return true w').
Proof.
  destruct (@no_prerequisite_check R _ chem_pot_R fermi_dirac_R
              fd_int_complete_R (fresh "ideal" 1)
              eq_refl eq_refl eq_refl eq_refl eq_refl)
    as (Hconstruct & Hoccupy & _).
  split; [exact Hconstruct |].
  exact (Hoccupy (zeros [1%nat]) eq_refl eq_refl).
Defined.

End Runs.

(** * Further facts: loops that stop early, and what is left alone *)

Section MoreStatementFacts.
Context {F : Type} `{Float F}.

Lemma for_app (body : nat -> M F unit) l1 l2 (w : World F) :
  for_ (l1 ++ l2) body w = bind (for_ l1 body) (fun _ => for_ l2 body) w.
Proof.
  revert w. induction l1 as [| i l1 IH]; intros w; simpl; [reflexivity |].
  unfold bind.
  destruct (body i w) as [[] w1 | e w1]; [| reflexivity].
  rewrite IH. reflexivity.
Qed.

Lemma for_local_app {A} (body : A -> nat -> M F A) l1 l2 a (w : World F) :
  for_local (l1 ++ l2) body a w =
    bind (for_local l1 body a) (fun a' => for_local l2 body a') w.
Proof.
  revert a w. induction l1 as [| i l1 IH]; intros a w; simpl;
    [reflexivity |].
  unfold bind.
  destruct (body a i w) as [a1 w1 | e w1]; [| reflexivity].
  rewrite IH. reflexivity.
Qed.

(** A loop whose body raises at the index [i], after the indices before
    it went through, raises there. *)
Lemma for_raise_at (body : nat -> M F unit) l1 i l2 e (w w1 w2 : World F) :
  for_ l1 body w = Return tt w1 ->
  body i w1 = Raise e w2 ->
  for_ (l1 ++ i :: l2) body w = Raise e w2.
Proof.
  intros Hpre Hbody. rewrite for_app.
  erewrite bind_return by exact Hpre. simpl.
  now erewrite bind_raise by exact Hbody.
Qed.

Lemma for_local_raise_at {A} (body : A -> nat -> M F A) l1 i l2 e a a1
      (w w2 : World F) :
  for_local l1 body a w = Return a1 w ->
  body a1 i w = Raise e w2 ->
  for_local (l1 ++ i :: l2) body a w = Raise e w2.
Proof.
  intros Hpre Hbody. rewrite for_local_app.
  erewrite bind_return by exact Hpre. simpl.
  now erewrite bind_raise by exact Hbody.
Qed.

Lemma range_cut k n :
  k < n -> range n = range k ++ k :: seq (S k) (n - S k).
Proof.
  intros Hk. unfold range.
  replace n with (k + S (n - S k)) at 1 by lia.
  now rewrite seq_app.
Qed.

Lemma in_range_lt k i : In i (range k) <-> i < k.
Proof. unfold range. rewrite in_seq. lia. Qed.

Lemma preserves_for_local {A} (P : World F -> Prop)
      (body : A -> nat -> M F A) l :
  (forall a i, preserves P (body a i)) ->
  forall a, preserves P (for_local l body a).
Proof.
  intros Hbody. induction l as [| i l IH]; intros a; simpl.
  - apply preserves_ret.
  - apply preserves_bind; [apply Hbody | exact IH].
Qed.

Lemma in_range_3 idx a b c :
  in_range idx [a; b; c] ->
  exists s l n, idx = [s; l; n] /\ s < a /\ l < b /\ n < c.
Proof.
  intros Hin. inversion Hin as [| s ? idx1 ? Hs H1]; subst.
  inversion H1 as [| l ? idx2 ? Hl H2]; subst.
  inversion H2 as [| n ? idx3 ? Hn H3]; subst.
  inversion H3; subst. now exists s, l, n.
Qed.

Lemma getitem_err {A} `{Default A} (a : ndarray A) i e :
  getitem a i = Err e -> e = IndexError.
Proof.
  unfold getitem. destruct (shape a) as [| d sh].
  - intros E. now injection E.
  - destruct (i <? d); [discriminate |]. intros E. now injection E.
Qed.

Lemma getitem_out {A} `{Default A} (a : ndarray A) i d sh :
  shape a = d :: sh -> d <= i -> getitem a i = Err IndexError.
Proof.
  intros Hsh Hi. unfold getitem. rewrite Hsh.
  apply Nat.ltb_ge in Hi. now rewrite Hi.
Qed.

Lemma item_out {A} `{Default A} (a : ndarray A) i d :
  shape a = [d] -> d <= i -> item a i = Err IndexError.
Proof.
  intros Hsh Hi. unfold item. rewrite Hsh.
  apply Nat.ltb_ge in Hi. now rewrite Hi.
Qed.

Lemma setitem_out {A} `{Default A} (a v : ndarray A) i d sh :
  shape a = d :: sh -> d <= i -> setitem a i v = Err IndexError.
Proof.
  intros Hsh Hi. unfold setitem. rewrite Hsh.
  apply Nat.ltb_ge in Hi. now rewrite Hi.
Qed.

Lemma getcol_out {A} `{Default A} (a : ndarray A) l d0 d1 sh :
  shape a = d0 :: d1 :: sh -> d1 <= l -> getcol a l = Err IndexError.
Proof.
  intros Hsh Hl. unfold getcol. rewrite Hsh.
  apply Nat.ltb_ge in Hl. now rewrite Hl.
Qed.

End MoreStatementFacts.

(** * Further facts about class Orbitals *)

Section MoreOrbitalsFacts.
Context {F : Type} `{Float F}.

Lemma make_lbound_unfold (w : World F) :
  make_lbound w = for_ (range (lmax (cfg w))) lbound_step w.
Proof. reflexivity. Qed.

(** The first [k] rounds of the loop of [make_lbound]. *)
Lemma lbound_loop (w : World F) ns nl nn k :
  shape (eigvals (orbs w)) = [ns; nl; nn] ->
  shape (lbound (orbs w)) = [ns; nl; nn] ->
  k <= nl ->
  exists lb,
    for_ (range k) lbound_step w = Return tt (set_lbound lb w) /\
    shape lb = [ns; nl; nn] /\
    (wf (lbound (orbs w)) -> wf lb) /\
    forall s l n, s < ns -> l < nl -> n < nn ->
      (l < k ->
       get lb [s; l; n] = lbound_entry l (get (eigvals (orbs w)) [s; l; n])) /\
      (k <= l -> get lb [s; l; n] = get (lbound (orbs w)) [s; l; n]).
Proof.
  intros Hev Hlb Hk.
  set (Inv := fun (done : list nat) (w0 : World F) =>
    exists lb, w0 = set_lbound lb w /\ shape lb = [ns; nl; nn] /\
      (wf (lbound (orbs w)) -> wf lb) /\
      forall s l n, s < ns -> l < nl -> n < nn ->
        (In l done ->
         get lb [s; l; n] =
           lbound_entry l (get (eigvals (orbs w)) [s; l; n])) /\
        (~ In l done ->
         get lb [s; l; n] = get (lbound (orbs w)) [s; l; n])).
  destruct (@for_invariant F Inv lbound_step (range k) w)
    as (w' & Hrun & lb & -> & Hsh & Hwf & Hget).
  - exists (lbound (orbs w)). split; [now destruct w as [c [] d] |].
    split; [assumption |]. split; [trivial |].
    intros s l n _ _ _. split; [intros [] | reflexivity].
  - intros pre i post w0 Hsplit (lb0 & -> & Hsh0 & Hwf0 & Hget0).
    apply range_split in Hsplit.
    assert (Hi : i < nl) by lia.
    unfold lbound_step. rewrite bind_gets. simpl orbs.
    simpl eigvals. simpl lbound.
    destruct (getcol_spec (eigvals (orbs w)) Hev Hi)
      as (col & Ecol & Hshcol & _ & Hcol).
    erewrite bind_lift_ok by exact Ecol.
    destruct (setcol_spec lb0
                (where_ (lt_scalar col (of_int 0))
                   (fadd (of_int (2 * Z.of_nat i)) (of_int 1)) (of_int 0))
                Hsh0 Hshcol Hi)
      as (lb1 & Eset & Hsh1 & Hwf1 & Hlb1).
    erewrite bind_lift_ok by exact Eset.
    eexists. split; [reflexivity |].
    exists lb1. split; [reflexivity |]. split; [assumption |].
    split; [intros _; exact Hwf1 |].
    intros s l n Hs Hl Hn.
    rewrite Hlb1 by (repeat constructor; assumption).
    destruct (Hget0 s l n Hs Hl Hn) as [Hin0 Hnin0].
    destruct (Nat.eqb_spec l i) as [-> | Hne].
    + split.
      * intros _.
        assert (Hsn : in_range [s; n] (shape col))
          by (rewrite Hshcol; repeat constructor; assumption).
        rewrite get_where by exact Hsn.
        unfold lt_scalar. rewrite get_amap by exact Hsn.
        rewrite Hcol by (repeat constructor; assumption).
        reflexivity.
      * intros Hnin. exfalso. apply Hnin, in_or_app. right. now left.
    + split.
      * intros Hin. apply Hin0.
        apply in_app_or in Hin as [Hin | [-> | []]];
          [assumption | contradiction].
      * intros Hnin. apply Hnin0. intros Hin.
        apply Hnin, in_or_app. now left.
  - exists lb. split; [exact Hrun |]. split; [assumption |].
    split; [assumption |].
    intros s l n Hs Hl Hn. destruct (Hget s l n Hs Hl Hn) as [Hin Hnin].
    split.
    + intros Hlk. now apply Hin, in_range_lt.
    + intros Hkl. apply Hnin. rewrite in_range_lt. lia.
Qed.

(** X1: when [config.lmax] is at most the number of angular momenta of
    the arrays, [make_lbound] rewrites the entries with [l < lmax] and
    leaves every entry with [l >= lmax] as it was. *)
Theorem make_lbound_below_lmax (w : World F) ns nl nn :
  shape (eigvals (orbs w)) = [ns; nl; nn] ->
  shape (lbound (orbs w)) = [ns; nl; nn] ->
  lmax (cfg w) <= nl ->
  exists w',
    make_lbound w = Return tt w' /\
    forall s l n, s < ns -> l < nl -> n < nn ->
      (l < lmax (cfg w) ->
       get (lbound (orbs w')) [s; l; n] =
         if fltb (get (eigvals (orbs w)) [s; l; n]) (of_int 0)
         then fadd (of_int (2 * Z.of_nat l)) (of_int 1) else of_int 0) /\
      (lmax (cfg w) <= l ->
       get (lbound (orbs w')) [s; l; n] = get (lbound (orbs w)) [s; l; n]).
Proof.
  intros Hev Hlb Hk.
  destruct (lbound_loop w Hev Hlb Hk) as (lb & Hrun & _ & _ & Hget).
  exists (set_lbound lb w). split; [exact Hrun |].
  intros s l n Hs Hl Hn. exact (Hget s l n Hs Hl Hn).
Qed.

(** X2: when [config.lmax] exceeds the number of angular momenta of the
    arrays, [make_lbound] raises [IndexError]; by then it has rewritten
    every entry of [lbound]. *)
Theorem make_lbound_index_error (w : World F) ns nl nn :
  shape (eigvals (orbs w)) = [ns; nl; nn] ->
  shape (lbound (orbs w)) = [ns; nl; nn] ->
  nl < lmax (cfg w) ->
  exists lb,
    make_lbound w = Raise IndexError (set_lbound lb w) /\
    forall s l n, s < ns -> l < nl -> n < nn ->
      get lb [s; l; n] =
        if fltb (get (eigvals (orbs w)) [s; l; n]) (of_int 0)
        then fadd (of_int (2 * Z.of_nat l)) (of_int 1) else of_int 0.
Proof.
  intros Hev Hlb Hk.
  destruct (lbound_loop w Hev Hlb (Nat.le_refl nl))
    as (lb & Hrun & _ & _ & Hget).
  exists lb. split.
  - rewrite make_lbound_unfold, (range_cut Hk).
    eapply for_raise_at; [exact Hrun |].
    unfold lbound_step. rewrite bind_gets. simpl.
    now erewrite bind_lift_err by exact (getcol_out _ Hev (Nat.le_refl nl)).
  - intros s l n Hs Hl Hn. now apply (Hget s l n Hs Hl Hn).
Qed.

(** X3: [make_lbound] can be repeated: a second call on the store the
    first call left completes and leaves that store as it is. *)
Theorem make_lbound_twice (w : World F) ns nl nn :
  shape (eigvals (orbs w)) = [ns; nl; nn] ->
  shape (lbound (orbs w)) = [ns; nl; nn] ->
  wf (lbound (orbs w)) ->
  lmax (cfg w) <= nl ->
  exists w1,
    make_lbound w = Return tt w1 /\ make_lbound w1 = Return tt w1.
Proof.
  intros Hev Hlb Hwf Hk.
  destruct (lbound_loop w Hev Hlb Hk) as (lb & Hrun & Hsh & Hwf1 & Hget).
  exists (set_lbound lb w). split; [exact Hrun |].
  destruct (@lbound_loop (set_lbound lb w) ns nl nn (lmax (cfg w)))
    as (lb2 & Hrun2 & Hsh2 & Hwf2 & Hget2); try assumption.
  rewrite make_lbound_unfold. simpl cfg. rewrite Hrun2.
  assert (E : lb2 = lb).
  { apply ndarray_ext; [now apply Hwf2, Hwf1 | now apply Hwf1 | congruence |].
    rewrite Hsh2. intros idx Hin.
    apply in_range_3 in Hin as (s & l & n & -> & Hs & Hl & Hn).
    destruct (Hget2 s l n Hs Hl Hn) as [Hlt2 Hge2].
    destruct (Hget s l n Hs Hl Hn) as [Hlt Hge].
    destruct (Nat.lt_ge_cases l (lmax (cfg w))) as [Hc | Hc].
    - rewrite Hlt2, Hlt by assumption. reflexivity.
    - now rewrite Hge2. }
  now rewrite E.
Qed.

End MoreOrbitalsFacts.

Section MoreOccupyFacts.
Context {F : Type} `{Float F}.
Variable matrix_solve :
  Config F -> Orbitals F -> ndarray F -> ndarray F ->
  result (ndarray F * ndarray F).
Variable chem_pot : Config F -> Orbitals F -> result (ndarray F).
Variable fermi_dirac : F -> F -> F -> F.

Lemma calc_occnums_unfold (m : ndarray F) (w : World F) :
  calc_occnums fermi_dirac m w =
    for_local (range (spindims (cfg w)))
      (occ_step fermi_dirac (orbs w) (cfg w) m)
      (zeros_like (eigvals (orbs w))) w.
Proof. reflexivity. Qed.

(** The first [k] rounds of the loop of [calc_occnums] go through when
    every array read has at least [k] rows. *)
Lemma occ_loop_prefix (w : World F) (m : ndarray F) ns nl nn dn dm k :
  shape (nele (cfg w)) = [dn] ->
  shape m = [dm] ->
  shape (eigvals (orbs w)) = [ns; nl; nn] ->
  shape (lbound (orbs w)) = [ns; nl; nn] ->
  k <= ns -> k <= dn -> k <= dm ->
  exists occ,
    for_local (range k) (occ_step fermi_dirac (orbs w) (cfg w) m)
      (zeros_like (eigvals (orbs w))) w = Return occ w /\
    shape occ = [ns; nl; nn].
Proof.
  intros Hnele Hm Hev Hlb Hks Hkn Hkm.
  apply (@for_local_invariant F _
           (fun _ occ => shape occ = [ns; nl; nn])).
  - unfold zeros_like. now rewrite Hev.
  - intros pre i post occ0 Hsplit Hsh0.
    apply range_split in Hsplit.
    assert (His : i < ns) by lia.
    assert (Hin : i < dn) by lia.
    assert (Him : i < dm) by lia.
    unfold occ_step.
    erewrite bind_lift_ok by exact (item_spec (nele (cfg w)) Hnele Hin).
    destruct (fneb (get (nele (cfg w)) [i]) (of_int 0));
      [| now exists occ0].
    destruct (getitem_spec (lbound (orbs w)) Hlb His)
      as (lb_i & Elb & Hshlb & _ & _).
    destruct (getitem_spec (eigvals (orbs w)) Hev His)
      as (ev_i & Eev & Hshev & _ & _).
    erewrite bind_lift_ok by exact Elb.
    erewrite bind_lift_ok by exact Eev.
    erewrite bind_lift_ok by exact (item_spec m Hm Him).
    destruct (@binop_spec F _ F F _ _ fmul lb_i
                (fermi_dirac_array fermi_dirac ev_i (get m [i])
                   (beta (cfg w))) [])
      as (prod & Eprod & Hshprod & _ & _).
    { simpl. now rewrite Hshlb, Hshev. }
    unfold mul. erewrite bind_lift_ok by exact Eprod.
    simpl shape in Hshprod. rewrite Hshev in Hshprod.
    destruct (setitem_spec occ0 prod Hsh0 Hshprod His)
      as (occ1 & Eset & Hsh1 & _ & _).
    exists occ1. split; [now apply lift_ok | assumption].
Qed.

(** X4: [occupy] is not all-or-nothing.  When the root finder returns
    fewer potentials than there are spin channels, and the first
    channel without a potential holds electrons, [occupy] raises
    [IndexError] after it has already replaced [config.mu]; [occnums]
    keeps its old value. *)
Theorem occupy_short_mu (w : World F) (m : ndarray F) ns nl nn k :
  spindims (cfg w) = ns ->
  shape (nele (cfg w)) = [ns] ->
  shape (eigvals (orbs w)) = [ns; nl; nn] ->
  shape (lbound (orbs w)) = [ns; nl; nn] ->
  chem_pot (cfg w) (orbs w) = Ok m ->
  shape m = [k] ->
  k < ns ->
  fneb (get (nele (cfg w)) [k]) (of_int 0) = true ->
  occupy chem_pot fermi_dirac w = Raise IndexError (set_mu m w).
Proof.
  intros Hns Hnele Hev Hlb Hchem Hm Hk Hne.
  unfold occupy. rewrite !bind_gets.
  erewrite bind_lift_ok by exact Hchem.
  rewrite bind_modify, bind_gets.
  apply bind_raise.
  rewrite calc_occnums_unfold.
  change (spindims (cfg (set_mu m w))) with (spindims (cfg w)).
  change (mu (cfg (set_mu m w))) with m.
  rewrite Hns, (range_cut Hk).
  destruct (@occ_loop_prefix (set_mu m w) m ns nl nn ns k k)
    as (occ & Hpre & Hsh); try assumption; try lia.
  eapply for_local_raise_at; [exact Hpre |].
  unfold occ_step.
  change (nele (cfg (set_mu m w))) with (nele (cfg w)).
  change (orbs (set_mu m w)) with (orbs w).
  erewrite bind_lift_ok by exact (item_spec (nele (cfg w)) Hnele Hk).
  rewrite Hne.
  destruct (getitem_spec (lbound (orbs w)) Hlb Hk) as (lb_i & Elb & _).
  destruct (getitem_spec (eigvals (orbs w)) Hev Hk) as (ev_i & Eev & _).
  erewrite bind_lift_ok by exact Elb.
  erewrite bind_lift_ok by exact Eev.
  now erewrite bind_lift_err by exact (item_out m Hm (Nat.le_refl k)).
Qed.

(** X5: when no spin channel holds electrons, [occupy] never reads the
    potentials, [lbound] or the eigenvalues: whatever array the root
    finder returns, it completes and sets [occnums] to zeros of the
    shape of [eigvals]. *)
Theorem occupy_no_electrons (w : World F) (m : ndarray F) ns :
  spindims (cfg w) = ns ->
  shape (nele (cfg w)) = [ns] ->
  (forall s, s < ns -> fneb (get (nele (cfg w)) [s]) (of_int 0) = false) ->
  chem_pot (cfg w) (orbs w) = Ok m ->
  occupy chem_pot fermi_dirac w =
    Return true (set_occnums (zeros_like (eigvals (orbs w))) (set_mu m w)).
Proof.
  intros Hns Hnele Hzero Hchem.
  unfold occupy. rewrite !bind_gets.
  erewrite bind_lift_ok by exact Hchem.
  rewrite bind_modify, bind_gets.
  destruct (@for_local_invariant F _
              (fun _ occ => occ = zeros_like (eigvals (orbs w)))
              (occ_step fermi_dirac (orbs w) (cfg (set_mu m w)) m)
              (range ns) (zeros_like (eigvals (orbs w))) (set_mu m w))
    as (occ & Hrun & ->); [reflexivity | |].
  - intros pre i post occ0 Hsplit ->.
    apply range_split in Hsplit.
    exists (zeros_like (eigvals (orbs w))). split; [| reflexivity].
    unfold occ_step.
    change (nele (cfg (set_mu m w))) with (nele (cfg w)).
    erewrite bind_lift_ok by exact (item_spec (nele (cfg w)) Hnele Hsplit).
    now rewrite (Hzero i Hsplit).
  - erewrite bind_return.
    2:{ rewrite calc_occnums_unfold.
        change (spindims (cfg (set_mu m w))) with (spindims (cfg w)).
        rewrite Hns. exact Hrun. }
    reflexivity.
Qed.

Ltac frame_tac :=
  repeat match goal with
         | |- preserves _ (if ?b then _ else _) => destruct b
         | |- preserves _ (bind _ _) => simple apply preserves_bind
         | |- preserves _ (gets _) => simple apply preserves_gets
         | |- preserves _ (lift _) => simple apply preserves_lift
         | |- preserves _ (ret _) => simple apply preserves_ret
         | |- preserves _ (for_ _ _) => simple apply preserves_for
         | |- preserves _ (for_local _ _ _) =>
             simple apply preserves_for_local
         | |- preserves _ (modify _) => simple apply preserves_modify; auto
         | |- forall _, _ => intro
         end.

Lemma occupy_preserves (P : World F -> Prop) :
  (forall a w, P w -> P (set_mu a w)) ->
  (forall a w, P w -> P (set_occnums a w)) ->
  preserves P (occupy chem_pot fermi_dirac).
Proof.
  intros H1 H2. unfold occupy, calc_occnums. frame_tac.
Qed.

(** X6: whether it completes or raises, [occupy] writes nothing but
    [config.mu] and [occnums]: the eigenfunctions, the eigenvalues,
    [lbound], the density and every other global of [config] are
    afterwards what they were. *)
Theorem occupy_frame (w : World F) :
  exists w',
    final (occupy chem_pot fermi_dirac w) = w' /\
    eigfuncs (orbs w') = eigfuncs (orbs w) /\
    eigvals (orbs w') = eigvals (orbs w) /\
    lbound (orbs w') = lbound (orbs w) /\
    dens w' = dens w /\
    spindims (cfg w') = spindims (cfg w) /\
    lmax (cfg w') = lmax (cfg w) /\
    nmax (cfg w') = nmax (cfg w) /\
    ngrid (cfg w') = ngrid (cfg w) /\
    unbound (cfg w') = unbound (cfg w) /\
    xgrid (cfg w') = xgrid (cfg w) /\
    nele (cfg w') = nele (cfg w) /\
    beta (cfg w') = beta (cfg w) /\
    sph_vol (cfg w') = sph_vol (cfg w).
Proof.
  eexists. split; [reflexivity |].
  apply (@occupy_preserves (fun w0 =>
    eigfuncs (orbs w0) = eigfuncs (orbs w) /\
    eigvals (orbs w0) = eigvals (orbs w) /\
    lbound (orbs w0) = lbound (orbs w) /\
    dens w0 = dens w /\
    spindims (cfg w0) = spindims (cfg w) /\
    lmax (cfg w0) = lmax (cfg w) /\
    nmax (cfg w0) = nmax (cfg w) /\
    ngrid (cfg w0) = ngrid (cfg w) /\
    unbound (cfg w0) = unbound (cfg w) /\
    xgrid (cfg w0) = xgrid (cfg w) /\
    nele (cfg w0) = nele (cfg w) /\
    beta (cfg w0) = beta (cfg w) /\
    sph_vol (cfg w0) = sph_vol (cfg w)));
    try (intros a w0 Hw0; exact Hw0).
  repeat split; reflexivity.
Qed.

(** *** Errors of [SCF_init] *)

(** X7: when the eigensolver raises, [SCF_init] raises the same
    exception and leaves the store untouched: the old eigenfunctions,
    eigenvalues, [lbound] and [config.mu] stay.  [v_en] is the bare
    potential handed to the solver. *)
Theorem SCF_init_solver_error (w : World F) (atom : Atom F)
        (v_en : ndarray F) e ns ng :
  spindims (cfg w) = ns ->
  ngrid (cfg w) = ng ->
  shape (xgrid (cfg w)) = [ng] ->
  shape v_en = [ns; ng] ->
  wf v_en ->
  (forall s i, s < ns -> i < ng ->
     get v_en [s; i] =
       fmul (fneg (at_chrg atom)) (fexp (fneg (get (xgrid (cfg w)) [i])))) ->
  matrix_solve (cfg w) (orbs w) v_en (xgrid (cfg w)) = Err e ->
  SCF_init matrix_solve atom w = Raise e w.
Proof.
  intros Hns Hng Hx Hshv Hwfv Hv Hsolve.
  destruct (@bare_potential_run F _ w (at_chrg atom) (xgrid (cfg w)) ns ng Hx)
    as (v & Hloop & Hshv' & Hwfv' & Hv').
  assert (Evv : v = v_en).
  { apply ndarray_ext; try assumption; [congruence |].
    intros idx Hin. rewrite Hshv' in Hin.
    apply in_range_2 in Hin as (s & i & -> & Hs & Hi).
    now rewrite Hv, Hv'. }
  subst v.
  unfold SCF_init. rewrite bind_gets, Hns, Hng.
  erewrite bind_return by exact Hloop.
  rewrite bind_gets.
  now erewrite bind_lift_err by exact Hsolve.
Qed.

Lemma setitem_row_mismatch {A} `{Default A} (a v : ndarray A) i d n g :
  shape a = [d; n] -> shape v = [g] -> i < d -> g <> n -> g <> 1 ->
  setitem a i v = Err ValueError.
Proof.
  intros Ha Hv Hi Hgn Hg1. unfold setitem. rewrite Ha, Hv.
  apply Nat.ltb_lt in Hi. rewrite Hi.
  unfold broadcast_shapes. cbn [rev app bshape_rev].
  destruct (Nat.eqb_spec g n) as [| _]; [contradiction |].
  destruct (Nat.eqb_spec g 1) as [| _]; [contradiction |].
  destruct (Nat.eqb_spec n 1) as [-> | _]; cbn [option_map rev app];
    [| reflexivity].
  destruct (shape_eq_dec [g] [1]) as [E | _]; [| reflexivity].
  injection E as E. contradiction.
Qed.

(** X8: when the grid array has neither [ngrid] points nor a single
    one, and there is a spin channel, [SCF_init] raises [ValueError]
    while it fills the potential: the solver is never called and the
    store is untouched. *)
Theorem SCF_init_grid_mismatch (w : World F) (atom : Atom F) g :
  shape (xgrid (cfg w)) = [g] ->
  g <> ngrid (cfg w) ->
  g <> 1 ->
  0 < spindims (cfg w) ->
  SCF_init matrix_solve atom w = Raise ValueError w.
Proof.
  intros Hx Hg Hg1 Hns.
  unfold SCF_init. rewrite bind_gets.
  apply bind_raise.
  destruct (spindims (cfg w)) as [| ns] eqn:Ens; [lia |].
  unfold range. simpl seq. simpl for_local.
  apply bind_raise. unfold lift.
  rewrite (@setitem_row_mismatch F _ (zeros [S ns; ngrid (cfg w)])
             (scalar_mul (fneg (at_chrg atom)) (exp (neg (xgrid (cfg w)))))
             0 (S ns) (ngrid (cfg w)) g);
    try assumption; try reflexivity; lia.
Qed.

End MoreOccupyFacts.

(** * Further facts about class Density *)

Section MoreDensityFacts.
Context {F : Type} `{Float F}.
Variable fd_int_complete : F -> F -> F -> F.

Lemma binop_last_mismatch {A B C} `{Default A} `{Default B}
      (f : A -> B -> C) (a : ndarray A) (b : ndarray B) pre g n :
  shape a = [g] -> shape b = pre ++ [n] ->
  g <> n -> g <> 1 -> n <> 1 ->
  binop f a b = Err ValueError.
Proof.
  intros Ha Hb Hgn Hg1 Hn1. unfold binop, broadcast_shapes.
  rewrite Ha, Hb, rev_unit. cbn [rev app bshape_rev].
  destruct (Nat.eqb_spec g n) as [| _]; [contradiction |].
  destruct (Nat.eqb_spec g 1) as [| _]; [contradiction |].
  destruct (Nat.eqb_spec n 1) as [| _]; [contradiction |].
  now destruct (rev pre).
Qed.

(** X9: when the grid array fits the last axis of the eigenfunctions
    neither by equal length nor by broadcasting a length of one,
    [construct] raises [ValueError] at the first product and leaves the
    density as it was. *)
Theorem construct_grid_mismatch (w : World F) ns nl nn ng g :
  shape (xgrid (cfg w)) = [g] ->
  shape (eigfuncs (orbs w)) = [ns; nl; nn; ng] ->
  g <> ng -> g <> 1 -> ng <> 1 ->
  construct fd_int_complete w = Raise ValueError w.
Proof.
  intros Hx Hef Hg Hg1 Hn1.
  unfold construct. apply bind_raise.
  unfold construct_rho_bound. rewrite !bind_gets.
  apply bind_lift_err. unfold mul.
  apply (@binop_last_mismatch F F F _ _ fmul _ _ [ns; nl; nn] g ng);
    assumption.
Qed.

(** X10: [construct] never writes to [config]: in particular the
    chemical potentials [config.mu] are afterwards what they were,
    whether it completes or raises. *)
Theorem construct_keeps_config (w : World F) :
  cfg (final (construct fd_int_complete w)) = cfg w.
Proof.
  apply (@construct_preserves F _ fd_int_complete
           (fun w0 => cfg w0 = cfg w));
    try (intros a w0 Hw0; exact Hw0). reflexivity.
Qed.

(** The first [k] rounds of the loop of [construct_rho_unbound] go
    through when every array indexed has at least [k] rows. *)
Lemma unbound_loop_prefix (w : World F) dn dm dr dq ng k :
  shape (nele (cfg w)) = [dn] ->
  shape (mu (cfg w)) = [dm] ->
  shape (rho_unbound (dens w)) = [dr; ng] ->
  shape (N_unbound (dens w)) = [dq] ->
  k <= dn -> k <= dm -> k <= dr -> k <= dq ->
  exists w',
    for_ (range k) (unbound_step fd_int_complete) w = Return tt w' /\
    shape (rho_unbound (dens w')) = [dr; ng] /\
    shape (N_unbound (dens w')) = [dq].
Proof.
  intros Hnele Hmu Hru Hnu Hkn Hkm Hkr Hkq.
  destruct (@for_invariant F (fun _ w0 =>
      cfg w0 = cfg w /\
      shape (rho_unbound (dens w0)) = [dr; ng] /\
      shape (N_unbound (dens w0)) = [dq])
      (unbound_step fd_int_complete) (range k) w)
    as (w' & Hrun & _ & Hru' & Hnu'); [now repeat split | | now exists w'].
  intros pre i post w0 Hsplit (Hc & Hru0 & Hnu0).
  apply range_split in Hsplit.
  assert (Hin : i < dn) by lia. assert (Him : i < dm) by lia.
  assert (Hir : i < dr) by lia. assert (Hiq : i < dq) by lia.
  destruct (setitem_scalar_spec (rho_unbound (dens w0))
              (n_unbound fd_int_complete (cfg w0) i) Hru0 Hir)
    as (ru & Eru & Hshru & _ & _).
  destruct (setitem_scalar_spec (N_unbound (dens w0))
              (fmul (n_unbound fd_int_complete (cfg w0) i)
                    (sph_vol (cfg w0))) Hnu0 Hiq)
    as (nu & Enu & Hshnu & _ & _).
  exists (set_N_unbound nu (set_rho_unbound ru w0)).
  split; [| now repeat split].
  rewrite <- Hc in Hnele, Hmu.
  unfold unbound_step. rewrite bind_gets.
  erewrite bind_lift_ok by exact (item_spec _ Hnele Hin).
  erewrite bind_lift_ok by exact (item_spec _ Hmu Him).
  rewrite bind_gets.
  erewrite bind_lift_ok by exact Eru.
  rewrite bind_modify, bind_gets.
  erewrite bind_lift_ok by exact Enu.
  reflexivity.
Qed.

(** X11: a [Density] built for fewer spin channels than [config] now
    has makes [construct_rho_unbound] raise [IndexError] part way: the
    rows it has are already overwritten with the new values. *)
Theorem construct_rho_unbound_short_density (w : World F) ns ng k :
  unbound (cfg w) = "ideal"%string ->
  spindims (cfg w) = ns ->
  shape (nele (cfg w)) = [ns] ->
  shape (mu (cfg w)) = [ns] ->
  shape (rho_unbound (dens w)) = [k; ng] ->
  shape (N_unbound (dens w)) = [k] ->
  k < ns ->
  exists w',
    construct_rho_unbound fd_int_complete w = Raise IndexError w' /\
    forall s, s < k ->
      (forall i, i < ng ->
         get (rho_unbound (dens w')) [s; i] =
           n_unbound fd_int_complete (cfg w) s) /\
      get (N_unbound (dens w')) [s] =
        fmul (n_unbound fd_int_complete (cfg w) s) (sph_vol (cfg w)).
Proof.
  intros Hideal Hns Hnele Hmu Hru Hnu Hk.
  destruct (@unbound_loop_prefix w ns ns k k ng k)
    as (w' & Hrun & Hru' & Hnu'); try assumption; try lia.
  pose proof (@unbound_loop_inv F _ fd_int_complete _ _ _ Hrun)
    as (Hc & _ & _ & _ & Hrows).
  exists w'. split.
  - rewrite construct_rho_unbound_unfold, Hideal, Hns. simpl.
    rewrite (range_cut Hk).
    eapply for_raise_at; [exact Hrun |].
    unfold unbound_step. rewrite bind_gets, Hc.
    erewrite bind_lift_ok by exact (item_spec _ Hnele Hk).
    erewrite bind_lift_ok by exact (item_spec _ Hmu Hk).
    rewrite bind_gets.
    now erewrite bind_lift_err
      by exact (setitem_out _ _ Hru' (Nat.le_refl k)).
  - intros s Hs.
    destruct (Hrows s) as (_ & _ & Hrow_ru & Hrow_nu);
      [now apply in_range_lt |].
    destruct Hrow_ru as (d & sh & Hsh & _ & _ & Hget_ru).
    destruct Hrow_nu as (d' & sh' & Hsh' & _ & _ & Hget_nu).
    rewrite Hru' in Hsh. injection Hsh as <- <-.
    rewrite Hnu' in Hsh'. injection Hsh' as <- <-.
    split.
    + intros i Hi. apply Hget_ru. repeat constructor; assumption.
    + apply Hget_nu. constructor.
Qed.

Lemma in_range_1 idx a :
  in_range idx [a] -> exists s, idx = [s] /\ s < a.
Proof.
  intros Hin. inversion Hin as [| s ? idx1 ? Hs H1]; subst.
  inversion H1; subst. now exists s.
Qed.

(** A completed run of the whole loop on arrays with exactly
    [spindims] rows fixes both unbound arrays. *)
Lemma unbound_loop_determined (w w' : World F) ns ng :
  0 < ns ->
  for_ (range ns) (unbound_step fd_int_complete) w = Return tt w' ->
  shape (rho_unbound (dens w')) = [ns; ng] ->
  shape (N_unbound (dens w')) = [ns] ->
  rho_unbound (dens w') =
    tabulate [ns; ng] (fun idx =>
      n_unbound fd_int_complete (cfg w) (hd 0 idx)) /\
  N_unbound (dens w') =
    tabulate [ns] (fun idx =>
      fmul (n_unbound fd_int_complete (cfg w) (hd 0 idx)) (sph_vol (cfg w))).
Proof.
  intros Hpos Hrun Hru Hnu.
  apply unbound_loop_inv in Hrun as (_ & _ & _ & _ & Hrows).
  destruct (Hrows 0) as (_ & _ & Hr0 & Hn0); [now apply in_range_lt |].
  destruct Hr0 as (? & ? & _ & _ & Hwfr & _).
  destruct Hn0 as (? & ? & _ & _ & Hwfn & _).
  split.
  - apply ndarray_ext; [assumption | apply wf_tabulate | now rewrite Hru |].
    rewrite Hru. intros idx Hin. rewrite get_tabulate by exact Hin.
    apply in_range_2 in Hin as (s & i & -> & Hs & Hi). simpl hd.
    destruct (Hrows s) as (_ & _ & Hrow & _); [now apply in_range_lt |].
    destruct Hrow as (d & sh & Hsh & _ & _ & Hget).
    rewrite Hru in Hsh. injection Hsh as <- <-.
    apply Hget. repeat constructor; assumption.
  - apply ndarray_ext; [assumption | apply wf_tabulate | now rewrite Hnu |].
    rewrite Hnu. intros idx Hin. rewrite get_tabulate by exact Hin.
    apply in_range_1 in Hin as (s & -> & Hs). simpl hd.
    destruct (Hrows s) as (_ & _ & _ & Hrow); [now apply in_range_lt |].
    destruct Hrow as (d & sh & Hsh & _ & _ & Hget).
    rewrite Hnu in Hsh. injection Hsh as <- <-.
    apply Hget. constructor.
Qed.

(** X12: with the "ideal" treatment [construct] recomputes the whole
    density: what it leaves depends on [config] and the orbitals only,
    not on what the density arrays held before. *)
Theorem construct_overwrites (w1 w2 : World F) ns nl nn ng ng' :
  cfg w1 = cfg w2 ->
  orbs w1 = orbs w2 ->
  unbound (cfg w1) = "ideal"%string ->
  spindims (cfg w1) = ns ->
  0 < ns ->
  shape (xgrid (cfg w1)) = [ng] ->
  shape (eigfuncs (orbs w1)) = [ns; nl; nn; ng] ->
  shape (occnums (orbs w1)) = [ns; nl; nn] ->
  shape (nele (cfg w1)) = [ns] ->
  shape (mu (cfg w1)) = [ns] ->
  shape (rho_unbound (dens w1)) = [ns; ng'] ->
  shape (N_unbound (dens w1)) = [ns] ->
  shape (rho_unbound (dens w2)) = [ns; ng'] ->
  shape (N_unbound (dens w2)) = [ns] ->
  exists d,
    construct fd_int_complete w1 = Return tt (set_dens d w1) /\
    construct fd_int_complete w2 = Return tt (set_dens d w2).
Proof.
  intros Hc Ho Hideal Hns Hpos Hx Hef Hocc Hnele Hmu Hru1 Hnu1 Hru2 Hnu2.
  destruct (construct_rho_bound_run w1 Hx Hef Hocc)
    as (rb & nb & Hrun1 & _).
  pose proof Hrun1 as Hinv.
  apply construct_rho_bound_inv in Hinv as (rb' & nb' & Heq & Hagain).
  assert (Hrun2 := Hagain w2 (eq_sym Hc) (eq_sym Ho)).
  assert (Hrun1' := Hagain w1 eq_refl eq_refl). clear Heq Hrun1.
  set (d := {| rho_bound := rb';
               rho_unbound := tabulate [ns; ng'] (fun idx =>
                 n_unbound fd_int_complete (cfg w1) (hd 0 idx));
               N_bound := nb';
               N_unbound := tabulate [ns] (fun idx =>
                 fmul (n_unbound fd_int_complete (cfg w1) (hd 0 idx))
                      (sph_vol (cfg w1))) |}).
  assert (Hgen : forall w, cfg w = cfg w1 ->
            shape (rho_unbound (dens w)) = [ns; ng'] ->
            shape (N_unbound (dens w)) = [ns] ->
            construct_rho_bound w =
              Return tt (set_N_bound nb' (set_rho_bound rb' w)) ->
            construct fd_int_complete w = Return tt (set_dens d w)).
  { intros w Hcw Hru Hnu Hrun.
    unfold construct. erewrite bind_return by exact Hrun.
    rewrite construct_rho_unbound_unfold. simpl cfg.
    rewrite Hcw, Hideal, Hns.
    destruct (@unbound_loop_prefix
                (set_N_bound nb' (set_rho_bound rb' w)) ns ns ns ns ng' ns)
      as (w' & Hloop & Hru' & Hnu'); simpl; rewrite ?Hcw;
      try assumption; try lia.
    rewrite Hloop. f_equal.
    destruct (@unbound_loop_determined _ _ _ _ Hpos Hloop Hru' Hnu')
      as [Eru Enu].
    apply unbound_loop_inv in Hloop as (Hc' & Ho' & Hrb' & Hnb' & _).
    simpl in Hc', Ho', Hrb', Hnb', Eru, Enu. rewrite Hcw in Eru, Enu.
    destruct w' as [c' o' [a b c0 d0]]. simpl in *. subst.
    reflexivity. }
  exists d. split.
  - now apply Hgen.
  - apply Hgen; [now symmetry | assumption | assumption | assumption].
Qed.

End MoreDensityFacts.

(** * Density.write_to_file *)

Section WriteFacts.
Context {F : Type} `{Float F}.

Lemma column_stack_spec (a : ndarray F) rest n :
  Forall (fun b => shape b = [n]) (a :: rest) ->
  exists r,
    column_stack (a :: rest) = Ok r /\
    shape r = [n; length (a :: rest)] /\
    forall i j, i < n -> j < length (a :: rest) ->
      get r [i; j] = get (nth j (a :: rest) a) [i].
Proof.
  intros Hall. unfold column_stack.
  rewrite (Forall_inv Hall).
  assert (Hfb : forallb (fun b => if shape_eq_dec (shape b) [n]
                                  then true else false) (a :: rest) = true).
  { apply forallb_forall. intros b Hb.
    rewrite Forall_forall in Hall. rewrite (Hall b Hb).
    now destruct (shape_eq_dec [n] [n]). }
  rewrite Hfb. eexists. split; [reflexivity |]. split; [reflexivity |].
  intros i j Hi Hj. rewrite get_tabulate; [reflexivity |].
  constructor; [exact Hi |]. constructor; [exact Hj | constructor].
Qed.

Lemma column_stack_mismatch (a b : ndarray F) rest n :
  shape a = [n] -> In b rest -> shape b <> [n] ->
  column_stack (a :: rest) = Err ValueError.
Proof.
  intros Ha Hin Hb. unfold column_stack. rewrite Ha.
  destruct (forallb _ (a :: rest)) eqn:Hfb; [| reflexivity].
  rewrite forallb_forall in Hfb.
  specialize (Hfb b (or_intror Hin)).
  now destruct (shape_eq_dec (shape b) [n]).
Qed.

(** X13: without spin polarization [write_to_file] hands
    [np.savetxt] the file name "density.csv" and a table with one row
    per grid point and three columns: the grid, [rho_bound[0]] and
    [rho_unbound[0]]; the header names three columns; the store is
    left as it is. *)
Theorem write_to_file_columns (w : World F) (rgrid : ndarray F) ns ns' ng :
  shape rgrid = [ng] ->
  shape (rho_bound (dens w)) = [ns; ng] ->
  shape (rho_unbound (dens w)) = [ns'; ng] ->
  0 < ns -> 0 < ns' ->
  exists req,
    write_to_file false rgrid w = Return req w /\
    st_fname req = "density.csv"%string /\
    shape (st_data req) = [ng; 3] /\
    length (header_names (st_header req)) = 3 /\
    forall i, i < ng ->
      get (st_data req) [i; 0] = get rgrid [i] /\
      get (st_data req) [i; 1] = get (rho_bound (dens w)) [0; i] /\
      get (st_data req) [i; 2] = get (rho_unbound (dens w)) [0; i].
Proof.
  intros Hr Hrb Hru Hns Hns'.
  destruct (getitem_spec (rho_bound (dens w)) Hrb Hns)
    as (rb0 & Erb & Hshrb & _ & Hrb0).
  destruct (getitem_spec (rho_unbound (dens w)) Hru Hns')
    as (ru0 & Eru & Hshru & _ & Hru0).
  destruct (@column_stack_spec rgrid [rb0; ru0] ng)
    as (data & Edata & Hshd & Hdata); [repeat constructor; assumption |].
  eexists. split.
  { unfold write_to_file. rewrite bind_gets.
    erewrite bind_lift_ok by exact Erb.
    erewrite bind_lift_ok by exact Eru.
    erewrite bind_lift_ok by exact Edata.
    reflexivity. }
  split; [reflexivity |]. split; [exact Hshd |]. split; [reflexivity |].
  intros i Hi. simpl st_data.
  rewrite !Hdata by (simpl; lia). simpl nth.
  rewrite Hrb0, Hru0 by (repeat constructor; assumption).
  now repeat split.
Qed.

(** X14: with spin polarization and at least two spin channels the
    table has five columns: the grid, then the bound and the unbound
    density of channel 0, then those of channel 1; the header names
    five columns. *)
Theorem write_to_file_spinpol_columns (w : World F) (rgrid : ndarray F)
        ns ns' ng :
  shape rgrid = [ng] ->
  shape (rho_bound (dens w)) = [ns; ng] ->
  shape (rho_unbound (dens w)) = [ns'; ng] ->
  1 < ns -> 1 < ns' ->
  exists req,
    write_to_file true rgrid w = Return req w /\
    shape (st_data req) = [ng; 5] /\
    length (header_names (st_header req)) = 5 /\
    forall i, i < ng ->
      get (st_data req) [i; 0] = get rgrid [i] /\
      get (st_data req) [i; 1] = get (rho_bound (dens w)) [0; i] /\
      get (st_data req) [i; 2] = get (rho_unbound (dens w)) [0; i] /\
      get (st_data req) [i; 3] = get (rho_bound (dens w)) [1; i] /\
      get (st_data req) [i; 4] = get (rho_unbound (dens w)) [1; i].
Proof.
  intros Hr Hrb Hru Hns Hns'.
  destruct (@getitem_spec F _ (rho_bound (dens w)) 0 ns [ng] Hrb)
    as (rb0 & Erb0 & Hshrb0 & _ & Hrb0); [lia |].
  destruct (@getitem_spec F _ (rho_unbound (dens w)) 0 ns' [ng] Hru)
    as (ru0 & Eru0 & Hshru0 & _ & Hru0); [lia |].
  destruct (getitem_spec (rho_bound (dens w)) Hrb Hns)
    as (rb1 & Erb1 & Hshrb1 & _ & Hrb1).
  destruct (getitem_spec (rho_unbound (dens w)) Hru Hns')
    as (ru1 & Eru1 & Hshru1 & _ & Hru1).
  destruct (@column_stack_spec rgrid [rb0; ru0; rb1; ru1] ng)
    as (data & Edata & Hshd & Hdata); [repeat constructor; assumption |].
  eexists. split.
  { unfold write_to_file. rewrite bind_gets.
    erewrite bind_lift_ok by exact Erb0.
    erewrite bind_lift_ok by exact Eru0.
    erewrite bind_lift_ok by exact Erb1.
    erewrite bind_lift_ok by exact Eru1.
    erewrite bind_lift_ok by exact Edata.
    reflexivity. }
  split; [exact Hshd |]. split; [reflexivity |].
  intros i Hi. simpl st_data.
  rewrite !Hdata by (simpl; lia). simpl nth.
  rewrite Hrb0, Hru0, Hrb1, Hru1 by (repeat constructor; assumption).
  now repeat split.
Qed.

(** X15: with spin polarization switched on while the density has a
    single spin channel, [write_to_file] raises [IndexError] at
    [rho_bound[1]] or before; no call of [np.savetxt] is made and the
    store is left as it is. *)
Theorem write_to_file_spinpol_one_channel (w : World F)
        (rgrid : ndarray F) ng :
  shape (rho_bound (dens w)) = [1; ng] ->
  write_to_file true rgrid w = Raise IndexError w.
Proof.
  intros Hrb.
  destruct (@getitem_spec F _ (rho_bound (dens w)) 0 1 [ng] Hrb)
    as (rb0 & Erb0 & _); [lia |].
  unfold write_to_file. rewrite bind_gets.
  erewrite bind_lift_ok by exact Erb0.
  destruct (getitem (rho_unbound (dens w)) 0) as [ru0 | e] eqn:Eru0.
  - erewrite bind_lift_ok by reflexivity.
    now erewrite bind_lift_err
      by exact (getitem_out _ Hrb (Nat.le_refl 1)).
  - apply getitem_err in Eru0 as ->.
    now erewrite bind_lift_err by reflexivity.
Qed.

(** X16: when the grid and the rows of the bound density differ in
    length, [write_to_file] raises [ValueError] at [np.column_stack];
    nothing is written. *)
Theorem write_to_file_length_mismatch (w : World F) (rgrid : ndarray F)
        ns ns' ng ng' g :
  shape rgrid = [g] ->
  shape (rho_bound (dens w)) = [ns; ng] ->
  shape (rho_unbound (dens w)) = [ns'; ng'] ->
  0 < ns -> 0 < ns' ->
  g <> ng ->
  write_to_file false rgrid w = Raise ValueError w.
Proof.
  intros Hr Hrb Hru Hns Hns' Hg.
  destruct (getitem_spec (rho_bound (dens w)) Hrb Hns)
    as (rb0 & Erb & Hshrb & _).
  destruct (getitem_spec (rho_unbound (dens w)) Hru Hns')
    as (ru0 & Eru & _).
  unfold write_to_file. rewrite bind_gets.
  erewrite bind_lift_ok by exact Erb.
  erewrite bind_lift_ok by exact Eru.
  erewrite bind_lift_err; [reflexivity |].
  apply (@column_stack_mismatch rgrid rb0 [rb0; ru0] g Hr);
    [now left |].
  rewrite Hshrb. intros E. injection E as E. now symmetry in E.
Qed.

End WriteFacts.

(** * The calls in sequence *)

Section CycleFacts.
Context {F : Type} `{Float F}.
Variable matrix_solve :
  Config F -> Orbitals F -> ndarray F -> ndarray F ->
  result (ndarray F * ndarray F).
Variable chem_pot : Config F -> Orbitals F -> result (ndarray F).
Variable fermi_dirac : F -> F -> F -> F.
Variable fd_int_complete : F -> F -> F -> F.

Lemma SCF_init_run (w : World F) (atom : Atom F) :
  solver_shapes matrix_solve ->
  shape (xgrid (cfg w)) = [ngrid (cfg w)] ->
  shape (lbound (orbs w)) =
    [spindims (cfg w); lmax (cfg w); nmax (cfg w)] ->
  exists ef ev lb,
    SCF_init matrix_solve atom w =
      Return tt (set_mu (zeros [spindims (cfg w)])
                   (set_lbound lb (set_eig ef ev w))) /\
    (exists v,
       shape v = [spindims (cfg w); ngrid (cfg w)] /\ wf v /\
       (forall s i, s < spindims (cfg w) -> i < ngrid (cfg w) ->
          get v [s; i] =
            fmul (fneg (at_chrg atom))
                 (fexp (fneg (get (xgrid (cfg w)) [i])))) /\
       matrix_solve (cfg w) (orbs w) v (xgrid (cfg w)) = Ok (ef, ev)) /\
    shape ef =
      [spindims (cfg w); lmax (cfg w); nmax (cfg w); ngrid (cfg w)] /\
    shape ev = [spindims (cfg w); lmax (cfg w); nmax (cfg w)] /\
    shape lb = [spindims (cfg w); lmax (cfg w); nmax (cfg w)] /\
    forall s l n,
      s < spindims (cfg w) -> l < lmax (cfg w) -> n < nmax (cfg w) ->
      get lb [s; l; n] = lbound_entry l (get ev [s; l; n]).
Proof.
  intros Hsolver Hx Hlb.
  destruct (@bare_potential_run F _ w (at_chrg atom) (xgrid (cfg w))
              (spindims (cfg w)) (ngrid (cfg w)) Hx)
    as (v & Hloop & Hshv & Hwfv & Hgetv).
  destruct (Hsolver (cfg w) (orbs w) v (xgrid (cfg w)))
    as (ef & ev & Hsolve & Hef & Hev).
  destruct (@make_lbound_run F _ (set_eig ef ev w)
              (spindims (cfg w)) (lmax (cfg w)) (nmax (cfg w)))
    as (lb & Hmk & Hshlb & Hget); try assumption; try reflexivity.
  exists ef, ev, lb. split.
  - unfold SCF_init. rewrite bind_gets.
    erewrite bind_return by exact Hloop.
    rewrite bind_gets.
    erewrite bind_lift_ok by exact Hsolve.
    rewrite bind_modify. simpl fst. simpl snd.
    erewrite bind_return by exact Hmk. reflexivity.
  - split; [exists v; now repeat split |].
    repeat (split; [assumption |]). exact Hget.
Qed.

Lemma occupy_run (w : World F) ns nl nn :
  chem_pot_shapes chem_pot ->
  spindims (cfg w) = ns ->
  shape (nele (cfg w)) = [ns] ->
  shape (eigvals (orbs w)) = [ns; nl; nn] ->
  shape (lbound (orbs w)) = [ns; nl; nn] ->
  exists m occ,
    occupy chem_pot fermi_dirac w =
      Return true (set_occnums occ (set_mu m w)) /\
    shape m = [ns] /\ shape occ = [ns; nl; nn] /\
    forall s l n, s < ns -> l < nl -> n < nn ->
      get occ [s; l; n] = occnum_entry fermi_dirac (cfg w) (orbs w) m s l n.
Proof.
  intros Hchem Hns Hnele Hev Hlb.
  destruct (Hchem (cfg w) (orbs w)) as (m & Hm & Hshm).
  rewrite Hns in Hshm.
  destruct (@calc_occnums_run F _ fermi_dirac (set_mu m w) m ns nl nn)
    as (occ & Hrun & Hsh & _ & Hget); try assumption.
  exists m, occ. split.
  - unfold occupy. rewrite !bind_gets.
    erewrite bind_lift_ok by exact Hm.
    rewrite bind_modify, bind_gets.
    erewrite bind_return by exact Hrun. reflexivity.
  - repeat (split; [assumption |]). exact Hget.
Qed.

Lemma construct_run_shapes (w : World F) ns nl nn ng ng' :
  shape (xgrid (cfg w)) = [ng] ->
  shape (eigfuncs (orbs w)) = [ns; nl; nn; ng] ->
  shape (occnums (orbs w)) = [ns; nl; nn] ->
  spindims (cfg w) = ns ->
  shape (nele (cfg w)) = [ns] ->
  shape (mu (cfg w)) = [ns] ->
  shape (rho_unbound (dens w)) = [ns; ng'] ->
  shape (N_unbound (dens w)) = [ns] ->
  exists rb nb w',
    construct_rho_bound w = Return tt (set_N_bound nb (set_rho_bound rb w)) /\
    construct_rho_unbound fd_int_complete
      (set_N_bound nb (set_rho_bound rb w)) = Return tt w' /\
    construct fd_int_complete w = Return tt w' /\
    cfg w' = cfg w /\ orbs w' = orbs w /\
    rho_bound (dens w') = rb /\ N_bound (dens w') = nb /\
    shape rb = [ns; ng] /\ shape nb = [ns] /\
    shape (rho_unbound (dens w')) = [ns; ng'] /\
    shape (N_unbound (dens w')) = [ns].
Proof.
  intros Hx Hef Hocc Hns Hnele Hmu Hru Hnu.
  destruct (construct_rho_bound_run w Hx Hef Hocc)
    as (rb & nb & Hrun & Hshrb & _ & Hshnb & _).
  set (wa := set_N_bound nb (set_rho_bound rb w)) in *.
  assert (Hub : exists w',
            construct_rho_unbound fd_int_complete wa = Return tt w' /\
            cfg w' = cfg w /\ orbs w' = orbs w /\
            rho_bound (dens w') = rb /\ N_bound (dens w') = nb /\
            shape (rho_unbound (dens w')) = [ns; ng'] /\
            shape (N_unbound (dens w')) = [ns]).
  { rewrite construct_rho_unbound_unfold.
    destruct (String.eqb (unbound (cfg wa)) "ideal").
    - destruct (@unbound_loop_returns F _ fd_int_complete wa ns ng')
        as (w' & Hloop & Hru' & Hnu'); try assumption.
      exists w'. change (spindims (cfg wa)) with (spindims (cfg w)).
      rewrite Hns. split; [exact Hloop |].
      apply unbound_loop_inv in Hloop as (Hc & Ho & Hrb & Hnb & _).
      now repeat split.
    - exists wa. now repeat split. }
  destruct Hub as (w' & Hunb & Hrest).
  exists rb, nb, w'. split; [exact Hrun |]. split; [exact Hunb |].
  split.
  - unfold construct. erewrite bind_return by exact Hrun. exact Hunb.
  - destruct Hrest as (? & ? & ? & ? & ? & ?). now repeat split.
Qed.

(** X17: one cycle [SCF_init], [occupy], [construct] goes through
    whenever the solver and the root finder return arrays of the
    configured shapes, on any store whose grid, electron counts,
    [lbound] and unbound arrays have the shapes the constructors give;
    afterwards every array of the store has its configured shape, so
    the next cycle can start from it. *)
Theorem scf_cycle_completes (w : World F) (atom : Atom F) :
  solver_shapes matrix_solve ->
  chem_pot_shapes chem_pot ->
  shape (xgrid (cfg w)) = [ngrid (cfg w)] ->
  shape (nele (cfg w)) = [spindims (cfg w)] ->
  shape (lbound (orbs w)) =
    [spindims (cfg w); lmax (cfg w); nmax (cfg w)] ->
  shape (rho_unbound (dens w)) = [spindims (cfg w); ngrid (cfg w)] ->
  shape (N_unbound (dens w)) = [spindims (cfg w)] ->
  exists w',
    scf_cycle matrix_solve chem_pot fermi_dirac fd_int_complete atom w
      = Return tt w' /\
    cfg_shaped (cfg w') /\
    orbs_shaped (cfg w') (orbs w') /\
    dens_shaped (cfg w') (dens w').
Proof.
  intros Hsolver Hchem Hx Hnele Hlb Hru Hnu.
  destruct (SCF_init_run w atom Hsolver Hx Hlb)
    as (ef & ev & lb & Hinit & _ & Hef & Hev & Hshlb & _).
  set (w1 := set_mu (zeros [spindims (cfg w)])
               (set_lbound lb (set_eig ef ev w))) in *.
  destruct (@occupy_run w1 (spindims (cfg w)) (lmax (cfg w)) (nmax (cfg w)))
    as (m & occ & Hocc & Hshm & Hshocc & _); try assumption;
    try reflexivity.
  set (w2 := set_occnums occ (set_mu m w1)) in *.
  destruct (@construct_run_shapes w2 (spindims (cfg w)) (lmax (cfg w))
              (nmax (cfg w)) (ngrid (cfg w)) (ngrid (cfg w)))
    as (rb & nb & w3 & _ & _ & Hcons & Hc3 & Ho3 & Hrb3 & Hnb3
        & Hshrb & Hshnb & Hru3 & Hnu3); try assumption; try reflexivity.
  exists w3. split.
  - unfold scf_cycle.
    erewrite bind_return by exact Hinit.
    erewrite bind_return by exact Hocc.
    exact Hcons.
  - rewrite Hc3, Ho3. unfold cfg_shaped, orbs_shaped, dens_shaped.
    rewrite Hrb3, Hnb3, Hru3, Hnu3. simpl.
    repeat split; assumption.
Qed.

(** X18: after [SCF_init] and [occupy], the eigenfunctions and the
    eigenvalues in the store are what the solver returned on the bare
    potential [v], the array of shape [(spindims, ngrid)] with entries
    [-Z * exp(-xgrid[i])], and a state whose eigenvalue is not below
    zero is unoccupied, in every arithmetic in which zero times any
    number is zero. *)
Theorem unbound_states_unoccupied (w : World F) (atom : Atom F) :
  solver_shapes matrix_solve ->
  chem_pot_shapes chem_pot ->
  (forall x : F, fmul (of_int 0) x = of_int 0) ->
  shape (xgrid (cfg w)) = [ngrid (cfg w)] ->
  shape (nele (cfg w)) = [spindims (cfg w)] ->
  shape (lbound (orbs w)) =
    [spindims (cfg w); lmax (cfg w); nmax (cfg w)] ->
  exists w',
    bind (SCF_init matrix_solve atom)
         (fun _ => occupy chem_pot fermi_dirac) w = Return true w' /\
    (exists v,
       shape v = [spindims (cfg w); ngrid (cfg w)] /\ wf v /\
       (forall s i, s < spindims (cfg w) -> i < ngrid (cfg w) ->
          get v [s; i] =
            fmul (fneg (at_chrg atom))
                 (fexp (fneg (get (xgrid (cfg w)) [i])))) /\
       matrix_solve (cfg w) (orbs w) v (xgrid (cfg w)) =
         Ok (eigfuncs (orbs w'), eigvals (orbs w'))) /\
    forall s l n,
      s < spindims (cfg w) -> l < lmax (cfg w) -> n < nmax (cfg w) ->
      fltb (get (eigvals (orbs w')) [s; l; n]) (of_int 0) = false ->
      get (occnums (orbs w')) [s; l; n] = of_int 0.
Proof.
  intros Hsolver Hchem Hmul Hx Hnele Hlb.
  destruct (SCF_init_run w atom Hsolver Hx Hlb)
    as (ef & ev & lb & Hinit & Hsol & Hef & Hev & Hshlb & Hgetlb).
  set (w1 := set_mu (zeros [spindims (cfg w)])
               (set_lbound lb (set_eig ef ev w))) in *.
  destruct (@occupy_run w1 (spindims (cfg w)) (lmax (cfg w)) (nmax (cfg w)))
    as (m & occ & Hocc & _ & _ & Hgetocc); try assumption;
    try reflexivity.
  eexists. split; [| split].
  - erewrite bind_return by exact Hinit. exact Hocc.
  - exact Hsol.
  - intros s l n Hs Hl Hn Hnot. simpl in Hnot |- *.
    rewrite (Hgetocc s l n Hs Hl Hn). unfold occnum_entry. simpl.
    destruct (fneb (get (nele (cfg w)) [s]) (of_int 0)); [| reflexivity].
    rewrite (Hgetlb s l n Hs Hl Hn). unfold lbound_entry.
    now rewrite Hnot, Hmul.
Qed.

Lemma fsum2_zero nj nk (f : nat -> nat -> F) :
  fadd (of_int 0) (of_int 0) = (of_int 0 : F) ->
  (forall j k, j < nj -> k < nk -> f j k = of_int 0) ->
  fsum2 nj nk f = of_int 0.
Proof.
  intros Hadd Hf. unfold fsum2.
  assert (Hgen : forall l : list (nat * nat),
            (forall p, In p l -> f (fst p) (snd p) = of_int 0) ->
            fold_left (fun acc jk => fadd acc (f (fst jk) (snd jk))) l
                      (of_int 0) = of_int 0).
  { induction l as [| p l IH]; intros Hl; simpl; [reflexivity |].
    rewrite (Hl p) by now left. rewrite Hadd.
    apply IH. intros q Hq. apply Hl. now right. }
  apply Hgen. intros [j k] Hin. apply in_prod_iff in Hin as [Hj Hk].
  apply in_seq in Hj, Hk. simpl. apply Hf; lia.
Qed.

(** X19: a spin channel without electrons contributes nothing: after
    [occupy] and [construct] with the "ideal" treatment its occupation
    numbers, its bound and unbound density and its bound and unbound
    electron counts are all zero, whatever the eigenvalues and
    eigenfunctions are, in every arithmetic with the usual laws of
    zero. *)
Theorem empty_channel_is_zero (w : World F) s :
  zero_laws (F := F) ->
  chem_pot_shapes chem_pot ->
  unbound (cfg w) = "ideal"%string ->
  shape (xgrid (cfg w)) = [ngrid (cfg w)] ->
  shape (nele (cfg w)) = [spindims (cfg w)] ->
  orbs_shaped (cfg w) (orbs w) ->
  dens_shaped (cfg w) (dens w) ->
  s < spindims (cfg w) ->
  get (nele (cfg w)) [s] = of_int 0 ->
  exists w',
    bind (occupy chem_pot fermi_dirac)
         (fun _ => construct fd_int_complete) w = Return tt w' /\
    (forall l n, l < lmax (cfg w) -> n < nmax (cfg w) ->
       get (occnums (orbs w')) [s; l; n] = of_int 0) /\
    (forall i, i < ngrid (cfg w) ->
       get (rho_bound (dens w')) [s; i] = of_int 0 /\
       get (rho_unbound (dens w')) [s; i] = of_int 0) /\
    get (N_bound (dens w')) [s] = of_int 0 /\
    get (N_unbound (dens w')) [s] = of_int 0.
Proof.
  intros (Hmul & Hdiv & Hadd & Hneb) Hchem Hideal Hx Hnele
         (Hef & Hev & _ & Hlb) (_ & Hru & _ & Hnu) Hs Hzero.
  destruct (@occupy_run w (spindims (cfg w)) (lmax (cfg w)) (nmax (cfg w)))
    as (m & occ & Hocc & Hshm & Hshocc & Hgetocc); try assumption;
    try reflexivity.
  set (w1 := set_occnums occ (set_mu m w)) in *.
  assert (Hocc0 : forall l n, l < lmax (cfg w) -> n < nmax (cfg w) ->
            get occ [s; l; n] = of_int 0).
  { intros l n Hl Hn. rewrite (Hgetocc s l n Hs Hl Hn).
    unfold occnum_entry. now rewrite Hzero, Hneb. }
  destruct (@construct_run_shapes w1 (spindims (cfg w)) (lmax (cfg w))
              (nmax (cfg w)) (ngrid (cfg w)) (ngrid (cfg w)))
    as (rb & nb & w2 & Hbound & Hunb & Hcons & Hc2 & Ho2 & Hrb2 & Hnb2
        & _ & _ & Hru2 & Hnu2); try assumption; try reflexivity.
  destruct (@construct_rho_bound_run F _ w1 (spindims (cfg w))
              (lmax (cfg w)) (nmax (cfg w)) (ngrid (cfg w)))
    as (rb' & nb' & Hbound' & _ & _ & _ & _ & Hgetrb & Hgetnb);
    try assumption.
  rewrite Hbound in Hbound'. injection Hbound' as Enb Erb.
  subst rb' nb'.
  rewrite construct_rho_unbound_unfold in Hunb.
  change (cfg (set_N_bound nb (set_rho_bound rb w1)))
    with (cfg w1) in Hunb.
  change (unbound (cfg w1)) with (unbound (cfg w)) in Hunb.
  change (spindims (cfg w1)) with (spindims (cfg w)) in Hunb.
  rewrite Hideal in Hunb. simpl in Hunb.
  apply unbound_loop_inv in Hunb as (_ & _ & _ & _ & Hrows).
  destruct (Hrows s) as (_ & _ & Hrow_ru & Hrow_nu);
    [now apply in_range_lt |].
  destruct Hrow_ru as (d & sh & Hsh & _ & _ & Hget_ru).
  destruct Hrow_nu as (d' & sh' & Hsh' & _ & _ & Hget_nu).
  rewrite Hru2 in Hsh. injection Hsh as <- <-.
  rewrite Hnu2 in Hsh'. injection Hsh' as <- <-.
  assert (Hn0 : n_unbound fd_int_complete
                  (cfg (set_N_bound nb (set_rho_bound rb w1))) s = of_int 0).
  { unfold n_unbound. simpl. now rewrite Hzero, Hdiv, Hmul. }
  exists w2. split.
  { erewrite bind_return by exact Hocc. exact Hcons. }
  rewrite Ho2, Hrb2, Hnb2. split; [exact Hocc0 |]. split; [| split].
  - intros i Hi. split.
    + rewrite (Hgetrb s i Hs Hi). apply fsum2_zero; [exact Hadd |].
      intros l n Hl Hn. unfold rho_bound_term. simpl.
      now rewrite (Hocc0 l n Hl Hn), Hmul.
    + rewrite Hget_ru by (repeat constructor; assumption). exact Hn0.
  - rewrite (Hgetnb s Hs). apply fsum2_zero; [exact Hadd |].
    intros l n Hl Hn. simpl. now apply Hocc0.
  - rewrite Hget_nu by constructor. rewrite Hn0. apply Hmul.
Qed.

(** X20: on objects fresh from their constructors, before any
    [occupy], the bound density and the bound electron count that
    [construct_rho_bound] computes are zero everywhere: the store is
    left exactly as the constructors made it, in every arithmetic in
    which zero times any number is zero and zero plus zero is zero. *)
Theorem construct_rho_bound_fresh (c : Config F) :
  (forall x : F, fmul (of_int 0) x = of_int 0) ->
  fadd (of_int 0) (of_int 0) = (of_int 0 : F) ->
  shape (xgrid c) = [ngrid c] ->
  construct_rho_bound
    {| cfg := c; orbs := Orbitals_init c; dens := Density_init c |} =
  Return tt {| cfg := c; orbs := Orbitals_init c; dens := Density_init c |}.
Proof.
  intros Hmul Hadd Hx.
  set (w := {| cfg := c; orbs := Orbitals_init c; dens := Density_init c |}).
  destruct (@construct_rho_bound_run F _ w (spindims c) (lmax c) (nmax c)
              (ngrid c) Hx eq_refl eq_refl)
    as (rb & nb & Hrun & Hshrb & Hwfrb & Hshnb & Hwfnb & Hgetrb & Hgetnb).
  assert (Hocc0 : forall s l n, s < spindims c -> l < lmax c -> n < nmax c ->
            get (occnums (orbs w)) [s; l; n] = of_int 0).
  { intros s l n Hs Hl Hn. apply get_zeros. now repeat constructor. }
  assert (Erb : rb = zeros [spindims c; ngrid c]).
  { apply ndarray_ext; [exact Hwfrb | apply wf_tabulate | exact Hshrb |].
    intros idx Hin. rewrite Hshrb in Hin.
    rewrite get_zeros by exact Hin.
    destruct (in_range_2 Hin) as (s & i & -> & Hs & Hi).
    rewrite (Hgetrb s i Hs Hi). apply fsum2_zero; [exact Hadd |].
    intros l n Hl Hn. unfold rho_bound_term.
    now rewrite (Hocc0 s l n Hs Hl Hn), Hmul. }
  assert (Enb : nb = zeros [spindims c]).
  { apply ndarray_ext; [exact Hwfnb | apply wf_tabulate | exact Hshnb |].
    intros idx Hin. rewrite Hshnb in Hin.
    rewrite get_zeros by exact Hin.
    destruct (in_range_1 Hin) as (s & -> & Hs).
    rewrite (Hgetnb s Hs). apply fsum2_zero; [exact Hadd |].
    intros l n Hl Hn. now apply Hocc0. }
  rewrite Hrun, Erb, Enb. reflexivity.
Qed.

End CycleFacts.

(** * Further concrete runs over the real numbers *)

Section MoreRuns.
Import Examples MoreExamples.
Open Scope R_scope.

Lemma R_neb_same (x : R) : R_neb x x = false.
Proof.
  unfold R_neb. destruct (Req_dec_T x x); [reflexivity | contradiction].
Qed.

Lemma R_zero_laws : @zero_laws R _.
Proof.
  repeat split.
  - exact R_zero_mul.
  - exact R_zero_div.
  - simpl. apply Rplus_0_l.
  - apply R_neb_same.
Qed.

Lemma chem_pot_R_shapes : chem_pot_shapes chem_pot_R.
Proof. intros c o. exists (zeros [spindims c]). now split. Qed.

Lemma matrix_solve_shaped_shapes : solver_shapes matrix_solve_shaped.
Proof. intros c o v x. eexists _, _. now repeat split. Qed.

(** [make_lbound] with [lmax = 1] on arrays for two values of [l]: the
    entries for [l = 0] are rewritten, those for [l = 1] keep their
    old value 7. *)
Lemma make_lbound_below_lmax_witness :
  exists w',
    make_lbound wide = Return tt w' /\
    get (lbound (orbs w')) [0; 0; 0]%nat = 1 /\
    get (lbound (orbs w')) [0; 1; 0]%nat = 7.
Proof.
  assert (Hl : (lmax (cfg wide) <= 2)%nat) by (simpl; lia).
  destruct (@make_lbound_below_lmax R _ wide 1 2 2 eq_refl eq_refl Hl)
    as (w' & Hrun & Hget).
  exists w'. split; [exact Hrun |].
  destruct (Hget 0%nat 0%nat 0%nat) as [Hlow _]; [lia | lia | lia |].
  destruct (Hget 0%nat 1%nat 0%nat) as [_ Hhigh]; [lia | lia | lia |].
  split.
  - rewrite Hlow by (simpl; lia).
    assert (E : fltb (get (eigvals (orbs wide)) [0; 0; 0]%nat) (of_int 0)
                = true)
      by (apply R_ltb_true; unfold get; simpl; lra).
    rewrite E. simpl. lra.
  - rewrite Hhigh by (simpl; lia). reflexivity.
Defined.

(** [make_lbound] with [lmax = 2] on arrays for one value of [l]. *)
Lemma make_lbound_index_error_witness :
  exists lb,
    make_lbound narrow = Raise IndexError (set_lbound lb narrow) /\
    get lb [0; 0; 0]%nat = 1.
Proof.
  assert (Hl : (1 < lmax (cfg narrow))%nat) by (simpl; lia).
  destruct (@make_lbound_index_error R _ narrow 1 1 2 eq_refl eq_refl Hl)
    as (lb & Hrun & Hget).
  exists lb. split; [exact Hrun |].
  rewrite (Hget 0%nat 0%nat 0%nat) by lia.
  assert (E : fltb (get (eigvals (orbs narrow)) [0; 0; 0]%nat) (of_int 0)
              = true)
    by (apply R_ltb_true; unfold get; simpl; lra).
  rewrite E. simpl. lra.
Defined.

Lemma make_lbound_twice_witness :
  exists w1,
    make_lbound wide = Return tt w1 /\ make_lbound w1 = Return tt w1.
Proof.
  assert (Hl : (lmax (cfg wide) <= 2)%nat) by (simpl; lia).
  exact (@make_lbound_twice R _ wide 1 2 2 eq_refl eq_refl eq_refl Hl).
Defined.

(** [occupy] when the root finder returns no potential. *)
Lemma occupy_short_mu_witness :
  occupy chem_pot_none fermi_dirac_R (solved "ideal" 1) =
    Raise IndexError (set_mu (zeros [0%nat]) (solved "ideal" 1)).
Proof.
  apply (@occupy_short_mu R _ chem_pot_none fermi_dirac_R
           (solved "ideal" 1) (zeros [0%nat]) 1 1 2 0);
    try reflexivity; [lia |].
  apply R_neb_true. unfold get. simpl. lra.
Defined.

(** [occupy] with no electrons. *)
Lemma occupy_no_electrons_witness :
  occupy chem_pot_R fermi_dirac_R (solved "ideal" 0) =
    Return true (set_occnums (zeros_like eigvals1)
                   (set_mu (zeros [1%nat]) (solved "ideal" 0))).
Proof.
  apply (@occupy_no_electrons R _ chem_pot_R fermi_dirac_R
           (solved "ideal" 0) (zeros [1%nat]) 1); try reflexivity.
  intros s Hs. destruct s as [| s]; [| lia]. apply R_neb_same.
Defined.

(** [SCF_init] when the solver fails. *)
Lemma SCF_init_solver_error_witness :
  SCF_init matrix_solve_fail {| at_chrg := 1 |} (fresh "ideal" 1) =
    Raise (LibraryError "numerov.matrix_solve") (fresh "ideal" 1).
Proof.
  apply (@SCF_init_solver_error R _ matrix_solve_fail (fresh "ideal" 1)
           {| at_chrg := 1 |} v_en1 _ 1 2
           eq_refl eq_refl eq_refl eq_refl eq_refl v_en1_entries eq_refl).
Defined.

(** [SCF_init] with three grid points under [ngrid = 2]. *)
Lemma SCF_init_grid_mismatch_witness :
  SCF_init matrix_solve_R {| at_chrg := 1 |} long_grid =
    Raise ValueError long_grid.
Proof.
  apply (@SCF_init_grid_mismatch R _ matrix_solve_R long_grid
           {| at_chrg := 1 |} 3); simpl; try reflexivity; lia.
Defined.

(** [construct] with three grid points and eigenfunctions on two. *)
Lemma construct_grid_mismatch_witness :
  construct fd_int_complete_R long_grid = Raise ValueError long_grid.
Proof.
  apply (@construct_grid_mismatch R _ fd_int_complete_R long_grid
           1 1 2 2 3); simpl; try reflexivity; lia.
Defined.

(** [construct_rho_unbound] with two spin channels configured and a
    density built for one. *)
Lemma construct_rho_unbound_short_density_witness :
  exists w',
    construct_rho_unbound fd_int_complete_R two_channels =
      Raise IndexError w' /\
    get (N_unbound (dens w')) [0%nat] =
      fmul (n_unbound fd_int_complete_R (cfg two_channels) 0)
           (sph_vol (cfg two_channels)).
Proof.
  destruct (@construct_rho_unbound_short_density R _ fd_int_complete_R
              two_channels 2 2 1
              eq_refl eq_refl eq_refl eq_refl eq_refl eq_refl)
    as (w' & Hrun & Hget); [lia |].
  exists w'. split; [exact Hrun |].
  destruct (Hget 0%nat) as [_ HN]; [lia | exact HN].
Defined.

(** [construct] on a fresh density and on one left over from an
    earlier cycle. *)
Lemma construct_overwrites_witness :
  exists d,
    construct fd_int_complete_R (occupied "ideal" 1) =
      Return tt (set_dens d (occupied "ideal" 1)) /\
    construct fd_int_complete_R dirty = Return tt (set_dens d dirty).
Proof.
  assert (Hpos : (0 < 1)%nat) by lia.
  exact (@construct_overwrites R _ fd_int_complete_R
           (occupied "ideal" 1) dirty 1 1 2 2 2
           eq_refl eq_refl eq_refl eq_refl Hpos
           eq_refl eq_refl eq_refl eq_refl eq_refl
           eq_refl eq_refl eq_refl eq_refl).
Defined.

(** [write_to_file] without spin polarisation. *)
Lemma write_to_file_columns_witness :
  exists req,
    write_to_file false rgrid2 dirty = Return req dirty /\
    shape (st_data req) = [2; 3]%nat /\
    get (st_data req) [1; 0]%nat = 2 /\
    get (st_data req) [1; 1]%nat = 5 /\
    get (st_data req) [1; 2]%nat = 6.
Proof.
  assert (Hpos : (0 < 1)%nat) by lia.
  destruct (@write_to_file_columns R _ dirty rgrid2 1 1 2
              eq_refl eq_refl eq_refl Hpos Hpos)
    as (req & Hrun & _ & Hsh & _ & Hget).
  exists req. split; [exact Hrun |]. split; [exact Hsh |].
  destruct (Hget 1%nat) as (H0 & H1 & H2); [lia |].
  rewrite H0, H1, H2. now repeat split.
Defined.

(** [write_to_file] with spin polarisation and two channels. *)
Lemma write_to_file_spinpol_columns_witness :
  exists req,
    write_to_file true rgrid2 polarised = Return req polarised /\
    shape (st_data req) = [2; 5]%nat /\
    get (st_data req) [0; 3]%nat = 3 /\
    get (st_data req) [0; 4]%nat = 7.
Proof.
  assert (Hpos : (1 < 2)%nat) by lia.
  destruct (@write_to_file_spinpol_columns R _ polarised rgrid2 2 2 2
              eq_refl eq_refl eq_refl Hpos Hpos)
    as (req & Hrun & Hsh & _ & Hget).
  exists req. split; [exact Hrun |]. split; [exact Hsh |].
  destruct (Hget 0%nat) as (_ & _ & _ & H3 & H4); [lia |].
  rewrite H3, H4. now split.
Defined.

(** [write_to_file] with spin polarisation and one channel. *)
Lemma write_to_file_spinpol_one_channel_witness :
  write_to_file true rgrid2 (occupied "ideal" 1) =
    Raise IndexError (occupied "ideal" 1).
Proof.
  exact (@write_to_file_spinpol_one_channel R _ (occupied "ideal" 1)
           rgrid2 2 eq_refl).
Defined.

(** [write_to_file] with a grid of three points and a density on
    two. *)
Lemma write_to_file_length_mismatch_witness :
  write_to_file false rgrid3 dirty = Raise ValueError dirty.
Proof.
  apply (@write_to_file_length_mismatch R _ dirty rgrid3 1 1 2 2 3);
    try reflexivity; lia.
Defined.

(** One cycle on fresh objects. *)
Lemma scf_cycle_completes_witness :
  exists w',
    scf_cycle matrix_solve_shaped chem_pot_R fermi_dirac_R
      fd_int_complete_R {| at_chrg := 1 |} (fresh "ideal" 1)
      = Return tt w' /\
    cfg_shaped (cfg w') /\
    orbs_shaped (cfg w') (orbs w') /\
    dens_shaped (cfg w') (dens w').
Proof.
  exact (@scf_cycle_completes R _ matrix_solve_shaped chem_pot_R
           fermi_dirac_R fd_int_complete_R (fresh "ideal" 1)
           {| at_chrg := 1 |}
           matrix_solve_shaped_shapes chem_pot_R_shapes
           eq_refl eq_refl eq_refl eq_refl eq_refl).
Defined.

(** [SCF_init] and [occupy] on fresh objects: the second state lies at
    zero and is unoccupied. *)
Lemma unbound_states_unoccupied_witness :
  exists w',
    bind (SCF_init matrix_solve_shaped {| at_chrg := 1 |})
         (fun _ => occupy chem_pot_R fermi_dirac_R) (fresh "ideal" 1)
      = Return true w' /\
    (exists v,
       get v [0; 1]%nat = - (1) * Rtrigo_def.exp (- (1)) /\
       matrix_solve_shaped (cfg (fresh "ideal" 1)) (orbs (fresh "ideal" 1))
         v (xgrid (cfg (fresh "ideal" 1))) =
         Ok (eigfuncs (orbs w'), eigvals (orbs w'))) /\
    get (occnums (orbs w')) [0; 0; 1]%nat = 0.
Proof.
  destruct (@unbound_states_unoccupied R _ matrix_solve_shaped chem_pot_R
              fermi_dirac_R (fresh "ideal" 1) {| at_chrg := 1 |}
              matrix_solve_shaped_shapes chem_pot_R_shapes R_zero_mul
              eq_refl eq_refl eq_refl)
    as (w' & Hrun & (v & _ & _ & Hgetv & Hsol) & Hzero).
  exists w'. split; [exact Hrun |]. split.
  - exists v. split; [| exact Hsol].
    rewrite (Hgetv 0%nat 1%nat) by (simpl; lia). reflexivity.
  - apply Hzero; try (simpl; lia).
    injection Hsol as _ Hev. rewrite <- Hev.
    apply R_ltb_false. unfold get. simpl. lra.
Defined.

(** [occupy] and [construct] for a spin channel without electrons. *)
Lemma empty_channel_is_zero_witness :
  exists w',
    bind (occupy chem_pot_R fermi_dirac_R)
         (fun _ => construct fd_int_complete_R) (occupied "ideal" 0)
      = Return tt w' /\
    get (occnums (orbs w')) [0; 0; 0]%nat = 0 /\
    get (rho_bound (dens w')) [0; 1]%nat = 0 /\
    get (N_bound (dens w')) [0%nat] = 0 /\
    get (N_unbound (dens w')) [0%nat] = 0.
Proof.
  assert (Ho : orbs_shaped (cfg (occupied "ideal" 0))
                 (orbs (occupied "ideal" 0))) by now repeat split.
  assert (Hd : dens_shaped (cfg (occupied "ideal" 0))
                 (dens (occupied "ideal" 0))) by now repeat split.
  assert (Hs : (0 < spindims (cfg (occupied "ideal" 0)))%nat)
    by (simpl; lia).
  destruct (@empty_channel_is_zero R _ chem_pot_R fermi_dirac_R
              fd_int_complete_R (occupied "ideal" 0) 0%nat
              R_zero_laws chem_pot_R_shapes eq_refl eq_refl eq_refl
              Ho Hd Hs eq_refl)
    as (w' & Hrun & Hocc & Hrho & HNb & HNu).
  exists w'. split; [exact Hrun |].
  split; [apply Hocc; simpl; lia |].
  split; [apply Hrho; simpl; lia |].
  split; assumption.
Defined.

(** [construct_rho_bound] on fresh objects. *)
Lemma construct_rho_bound_fresh_witness :
  construct_rho_bound (fresh "ideal" 1) = Return tt (fresh "ideal" 1).
Proof.
  apply (@construct_rho_bound_fresh R _ (config1 "ideal" 1) R_zero_mul).
  - simpl. apply Rplus_0_l.
  - reflexivity.
Defined.

End MoreRuns.

(** * An empty spin channel under IEEE 754 special values *)

Section EmptyChannel.
Import SpecialValues.






End EmptyChannel.
